(** * pyop.operators.convolution: convolution and central-difference operators

    A shallow embedding of [src/pyop/operators/convolution.py].

    - numpy arrays are a shape together with a C-contiguous buffer;
    - array entries (numpy float64 in the program) are idealised as exact
      rationals, [Qc]: rounding is not part of this development;
    - Python exceptions are values of [exn]; a call that may raise returns
      [result A = exn + A];
    - [LinearOperator], [matvectorized] and [ensure2dColumn] live in modules
      of pyop that are not in src: they follow the specification;
    - scipy's [signal.convolve], [central_diff_weights] and [linalg.inv]
      follow their documented contracts. *)

From Stdlib Require Import String.
From Stdlib Require Import List Arith ZArith QArith Qcanon Lia Bool.
From Stdlib Require Import Permutation.
Import ListNotations.

Local Open Scope nat_scope.

(** ** Exceptions and the error monad *)

Inductive exn : Type :=
| ValueError (msg : string)
| TypeError (msg : string)
| IndexError (msg : string)
| ZeroDivisionError (msg : string)
| ShapeError (msg : string)
| LinAlgError (msg : string).

Definition result (A : Type) : Type := (exn + A)%type.

Definition ret {A : Type} (a : A) : result A := inr a.
Definition raise {A : Type} (e : exn) : result A := inl e.

Definition bind {A B : Type} (m : result A) (k : A -> result B) : result B :=
  match m with
  | inl e => inl e
  | inr a => k a
  end.

Notation "x <- m ;; k" := (bind m (fun x => k))
  (at level 61, m at next level, right associativity).

(** The spec's error kind for invalid producer parameters: the producers of
    this module raise it as Python's [ValueError]. *)
Definition ConfigurationError (e : exn) : Prop :=
  exists msg, e = ValueError msg.

(** [mapM f l]: run [f] on every element, left to right, stopping at the
    first exception. *)
Fixpoint mapM {A B : Type} (f : A -> result B) (l : list A) : result (list B) :=
  match l with
  | [] => ret []
  | a :: l' => b <- f a ;; bs <- mapM f l' ;; ret (b :: bs)
  end.

(** ** Scalars *)

Definition qsum (l : list Qc) : Qc := fold_right Qcplus (Q2Qc 0) l.

(** [sum_over l g] is the sum of [g i] for [i] in [l]. *)
Definition sum_over {A : Type} (l : list A) (g : A -> Qc) : Qc :=
  qsum (map g l).


Definition Qc_eqb (a b : Qc) : bool := Qeq_bool (this a) (this b).

Fixpoint Qc_list_eqb (l1 l2 : list Qc) : bool :=
  match l1, l2 with
  | [], [] => true
  | a :: l1', b :: l2' => Qc_eqb a b && Qc_list_eqb l1' l2'
  | _, _ => false
  end.

(** ** Multi-indices *)

(** [prod shape]: the number of entries of an array of that shape. *)
Definition prod (shape : list nat) : nat := fold_right Nat.mul 1 shape.

(** All multi-indices of [shape] in C (row-major) order: last axis fastest. *)
Fixpoint indices (shape : list nat) : list (list nat) :=
  match shape with
  | [] => [[]]
  | n :: ns => flat_map (fun i => map (cons i) (indices ns)) (seq 0 n)
  end.

(** Position of a multi-index in the C-contiguous buffer. *)
Fixpoint ravel (shape idx : list nat) : nat :=
  match shape, idx with
  | n :: ns, i :: ix => i * prod ns + ravel ns ix
  | _, _ => 0
  end.

(** [valid shape idx]: [idx] has one component per axis, each in range. *)
Fixpoint valid (shape idx : list nat) : Prop :=
  match shape, idx with
  | [], [] => True
  | n :: ns, i :: ix => i < n /\ valid ns ix
  | _, _ => False
  end.

Fixpoint validb (shape idx : list nat) : bool :=
  match shape, idx with
  | [], [] => true
  | n :: ns, i :: ix => (i <? n) && validb ns ix
  | _, _ => false
  end.

(** ** N-dimensional arrays *)

Record ndarray : Type := mkArr {
  a_shape : list nat;   (* a.shape *)
  a_data : list Qc      (* the entries, in C order *)
}.

(** a.ndim *)
Definition ndim (a : ndarray) : nat := length (a_shape a).

(** a.size *)
Definition size (a : ndarray) : nat := prod (a_shape a).

Definition wf (a : ndarray) : Prop := length (a_data a) = prod (a_shape a).

(** a[idx] for an in-range multi-index. *)
Definition get (a : ndarray) (idx : list nat) : Qc :=
  nth (ravel (a_shape a) idx) (a_data a) (Q2Qc 0).

(** The array of shape [sh] whose entry at [idx] is [f idx]. *)
Definition build (sh : list nat) (f : list nat -> Qc) : ndarray :=
  mkArr sh (map f (indices sh)).

(** np.zeros(sh) *)
Definition zeros (sh : list nat) : ndarray := build sh (fun _ => Q2Qc 0).

Fixpoint zipWith {A B C : Type} (f : A -> B -> C) (l1 : list A) (l2 : list B)
  : list C :=
  match l1, l2 with
  | a :: l1', b :: l2' => f a b :: zipWith f l1' l2'
  | _, _ => []
  end.

(** ** Index order of reshape and ravel

    ['C'] is row-major and ['F'] column-major.  ['A'] means Fortran order
    only for an array that is Fortran- and not C-contiguous; the columns and
    the convolution results handled here never are, so ['A'] reads as ['C']. *)

Definition valid_order (order : string) : bool :=
  String.eqb order "C" || String.eqb order "F" || String.eqb order "A".

Definition fortran (order : string) : bool := String.eqb order "F".

(** Position of [idx] in the flat vector, by order. *)
Definition ravel_by (order : string) (sh idx : list nat) : nat :=
  if fortran order then ravel (rev sh) (rev idx) else ravel sh idx.

(** The multi-indices of [sh] in the order they are laid out in the flat
    vector. *)
Definition indices_by (order : string) (sh : list nat) : list (list nat) :=
  if fortran order then map (@rev nat) (indices (rev sh)) else indices sh.

(** v.reshape(sh, order=order) for a 1-D [v]. *)
Definition reshape (v : list Qc) (sh : list nat) (order : string)
  : result ndarray :=
  if length v =? prod sh
  then ret (build sh (fun idx => nth (ravel_by order sh idx) v (Q2Qc 0)))
  else raise (ValueError "cannot reshape array into the requested shape").

(** a.ravel(order) *)
Definition flatten (a : ndarray) (order : string) : list Qc :=
  map (get a) (indices_by order (a_shape a)).

(** ** Reversing axes *)

(** [idx] with its component on axis [d] mirrored. *)
Fixpoint reverse_at (d : nat) (sh idx : list nat) {struct sh} : list nat :=
  match sh, idx with
  | n :: ns, i :: ix =>
      match d with
      | 0 => (n - 1 - i) :: ix
      | S d' => i :: reverse_at d' ns ix
      end
  | _, _ => idx
  end.

(** a[(every,) * d + (reverse,)]: axis [d] read backwards. *)
Definition reverse_axis (d : nat) (a : ndarray) : ndarray :=
  build (a_shape a) (fun idx => get a (reverse_at d (a_shape a) idx)).

(** __flip: the loop over [range(a.ndim)]. *)
Definition __flip (a : ndarray) : ndarray :=
  fold_left (fun acc d => reverse_axis d acc) (seq 0 (ndim a)) a.

(** ** Basic slicing *)

(** Python's adjustment of one slice bound to an axis of length [len]. *)
Definition adjust (x len : Z) : Z :=
  if (x <? 0)%Z then Z.max (x + len) 0 else Z.min x len.

(** [slice(start, stop).indices(len)]: first position and number of
    positions selected. *)
Definition slice_bounds (bnd : Z * Z) (len : nat) : nat * nat :=
  let b := adjust (fst bnd) (Z.of_nat len) in
  let e := adjust (snd bnd) (Z.of_nat len) in
  (Z.to_nat b, Z.to_nat (e - b)).

(** a[slc] for a tuple of [slice(start, stop)]: the axes without a slice are
    taken whole, more slices than axes are refused. *)
Definition getslice (a : ndarray) (slc : list (Z * Z)) : result ndarray :=
  if ndim a <? length slc
  then raise (IndexError "too many indices for array")
  else
    let plan := zipWith slice_bounds slc (a_shape a)
                ++ map (fun n => (0, n)) (skipn (length slc) (a_shape a)) in
    ret (build (map snd plan)
               (fun idx => get a (zipWith Nat.add (map fst plan) idx))).

(** ** scipy.signal.convolve(a, k, 'full')

    The external numeric kernel: entry [j] of the result is the sum over the
    entries [i] of [a] of [a[i] * k[j - i]], where [j - i] is an index of
    [k]; axis [d] of the result has [a.shape[d] + k.shape[d] - 1] entries.
    Operands of different dimensionality are refused.  So are, here,
    operands with no entry: what scipy answers for them depends on its
    version and on the shapes, and the statements below are about operands
    that have entries. *)

Definition le_idx (i j : list nat) : bool :=
  forallb (fun p => fst p <=? snd p) (combine i j).

Definition sub_idx (j i : list nat) : list nat := zipWith Nat.sub j i.

Definition full_entry (a k : ndarray) (j : list nat) : Qc :=
  sum_over (indices (a_shape a)) (fun i =>
    if le_idx i j && validb (a_shape k) (sub_idx j i)
    then (get a i * get k (sub_idx j i))%Qc
    else Q2Qc 0).

Definition signal_convolve_full (a k : ndarray) : result ndarray :=
  if negb (ndim a =? ndim k)
  then raise (ValueError "in1 and in2 should have the same dimensionality")
  else if (size a =? 0) || (size k =? 0)
  then raise (ValueError "operands cannot be empty")
  else ret (build (zipWith (fun n m => n + m - 1) (a_shape a) (a_shape k))
                  (full_entry a k)).

(** ** The operator algebra used by this module *)

(** A 1-D array holding [v]. *)
Definition vec (v : list Qc) : ndarray := mkArr [length v] v.

(** Column [j] of a 2-D batch, as a flat vector. *)
Definition column (X : ndarray) (j : nat) : list Qc :=
  map (fun i => get X [i; j]) (seq 0 (nth 0 (a_shape X) 0)).

(** The 2-D array whose columns are [cols]; [rows] is the row count of an
    empty batch. *)
Definition column_stack (rows : nat) (cols : list (list Qc)) : result ndarray :=
  let r := match cols with [] => rows | c :: _ => length c end in
  if forallb (fun c => length c =? r) cols
  then ret (build [r; length cols]
                  (fun idx => nth (nth 0 idx 0) (nth (nth 1 idx 0) cols [])
                                  (Q2Qc 0)))
  else raise (ValueError "all the input array dimensions must match").

(** Modelled from the spec: the class [LinearOperator] of pyop.linop is not
    in src.  An operator is an immutable value: a shape [(rows, cols)], a
    forward function and an adjoint function, both on 2-D batches of
    columns. *)
Record LinearOperator : Type := mkLinearOperator {
  op_shape : nat * nat;
  op_forward : ndarray -> result ndarray;
  op_adjoint : ndarray -> result ndarray
}.

(** Modelled from the spec: [ensure2dColumn] of pyop.utilities is not in
    src.  A 1-D vector becomes a single column, a 2-D array is unchanged. *)
Definition ensure2dColumn (x : ndarray) : ndarray :=
  match a_shape x with
  | [n] => mkArr [n; 1] (a_data x)
  | _ => x
  end.

(** Modelled from the spec: applying an operator (its [__call__], not in
    src).  The input is canonicalised to a batch of columns and its leading
    dimension checked against [need]; a 1-D input gets a 1-D answer, as in
    the docstring of [convolve]. *)
Definition run_on (need : nat) (f : ndarray -> result ndarray) (x : ndarray)
  : result ndarray :=
  let X := ensure2dColumn x in
  match a_shape X with
  | [r; n] =>
      if r =? need
      then Y <- f X ;;
           ret (if ndim x =? 1 then vec (a_data Y) else Y)
      else raise (ShapeError "input length does not match the operator")
  | _ => raise (ShapeError "expected a vector or a batch of columns")
  end.

Definition LinearOperator_apply (A : LinearOperator) : ndarray -> result ndarray :=
  run_on (snd (op_shape A)) (op_forward A).

Definition LinearOperator_applyAdjoint (A : LinearOperator)
  : ndarray -> result ndarray :=
  run_on (fst (op_shape A)) (op_adjoint A).

(** Modelled from the spec: [matvectorized] of pyop.utilities is not in src.
    [matvectorized shape order f] works on a batch column by column: the
    column is reshaped into [shape], [f] is applied, the result is flattened
    back, and the columns are reassembled in their order. *)
Definition matvectorized (shape : list nat) (order : string)
    (f : ndarray -> result ndarray) (X : ndarray) : result ndarray :=
  match a_shape X with
  | [r; n] =>
      cols <- mapM (fun j =>
                      img <- reshape (column X j) shape order ;;
                      out <- f img ;;
                      ret (flatten out order))
                   (seq 0 n) ;;
      column_stack (prod shape) cols
  | _ => raise (ShapeError "expected a batch of columns")
  end.

(** ** convolve *)

(** reduce(mul, shape) *)
Definition reduce_mul (shape : list nat) : result nat :=
  match shape with
  | [] => raise (TypeError "reduce() of empty sequence with no initial value")
  | n :: ns => ret (fold_left Nat.mul ns n)
  end.

Definition convSame (img kernel : ndarray) (slc : list (Z * Z))
  : result ndarray :=
  full <- signal_convolve_full img kernel ;;
  getslice full slc.

Definition convolve (kernel : ndarray) (shape : list nat) (order : string)
  : result LinearOperator :=
  if negb (ndim kernel =? length shape)
  then raise (ValueError "kernel and shape must have the same dimensions.")
  else if negb (valid_order order)
  then raise (ValueError "The order must be 'C', 'F', or 'A'")
  else
    vector_length <- reduce_mul shape ;;
    let op_shape := (vector_length, vector_length) in
    let dim := ndim kernel in
    let adjoint_kernel := __flip kernel in
    let f_start d := ((Z.of_nat (nth d (a_shape kernel) 0%nat) - 1) / 2)%Z in
    let f_stop d := (f_start d + Z.of_nat (nth d shape 0%nat))%Z in
    let f_slice := map (fun d => (f_start d, f_stop d)) (seq 0 dim) in
    let a_start d := (Z.of_nat (nth d (a_shape adjoint_kernel) 0%nat) / 2)%Z in
    let a_stop d := (a_start d + Z.of_nat (nth d shape 0%nat))%Z in
    let a_slice := map (fun d => (a_start d, a_stop d)) (seq 0 dim) in
    let mv := matvectorized shape order in
    ret (mkLinearOperator op_shape
           (mv (fun img => convSame img kernel f_slice))
           (mv (fun img => convSame img adjoint_kernel a_slice))).

(** ** scipy.misc.central_diff_weights

    The external producer of the weights: it refuses [Np < ndiv + 1] and an
    even [Np], and returns [ndiv! * inv(X)[ndiv]] for the Vandermonde matrix
    [X] of the points [-ho .. ho], [ho = Np >> 1].  The inverse is exact
    here. *)

(** a[i] for a Python sequence: a negative index counts from the end. *)
Definition getitem {A : Type} (l : list A) (i : Z) : result A :=
  let n := Z.of_nat (length l) in
  let i' := if (i <? 0)%Z then (i + n)%Z else i in
  if ((0 <=? i') && (i' <? n))%Z
  then match nth_error l (Z.to_nat i') with
       | Some a => ret a
       | None => raise (IndexError "index out of range")
       end
  else raise (IndexError "index out of range").

Definition row_scale (c : Qc) (r : list Qc) : list Qc :=
  map (fun v => (c * v)%Qc) r.

(** r - c * p *)
Definition row_sub (r : list Qc) (c : Qc) (p : list Qc) : list Qc :=
  zipWith (fun v w => (v - c * w)%Qc) r p.

(** The first row of [rows] with a non-zero entry in column [c], and the
    other rows in their order. *)
Fixpoint find_pivot (c : nat) (rows : list (list Qc))
  : option (list Qc * list (list Qc)) :=
  match rows with
  | [] => None
  | r :: rows' =>
      if Qc_eqb (nth c r (Q2Qc 0)) (Q2Qc 0)
      then match find_pivot c rows' with
           | Some (p, rest) => Some (p, r :: rest)
           | None => None
           end
      else Some (r, rows')
  end.

(** Gauss-Jordan elimination on the augmented rows: [done] holds the pivot
    rows of the columns before [c], [todo] the rows not used yet. *)
Fixpoint eliminate (cols : list nat) (done todo : list (list Qc))
  : option (list (list Qc)) :=
  match cols with
  | [] => Some done
  | c :: cols' =>
      match find_pivot c todo with
      | None => None
      | Some (p, rest) =>
          let p' := row_scale (/ nth c p (Q2Qc 0))%Qc p in
          let clear r := row_sub r (nth c r (Q2Qc 0)) p' in
          eliminate cols' (map clear done ++ [p']) (map clear rest)
      end
  end.

(** scipy.linalg.inv of an [n] by [m] matrix given by its rows. *)
Definition linalg_inv (n m : nat) (X : list (list Qc))
  : result (list (list Qc)) :=
  if negb (n =? m) then raise (ValueError "expected square matrix")
  else
    let unit i := map (fun j => if i =? j then Q2Qc 1 else Q2Qc 0) (seq 0 n) in
    let aug := map (fun i => nth i X [] ++ unit i) (seq 0 n) in
    match eliminate (seq 0 n) [] aug with
    | Some rows => ret (map (skipn n) rows)
    | None => raise (LinAlgError "singular matrix")
    end.

(** product(arange(1, n + 1)) *)
Definition factorial (n : Z) : Qc :=
  fold_right (fun k acc => (Q2Qc (inject_Z (Z.of_nat k)) * acc)%Qc) (Q2Qc 1)
             (seq 1 (Z.to_nat n)).

Definition central_diff_weights (Np ndiv : Z) : result (list Qc) :=
  if (Np <? ndiv + 1)%Z
  then raise (ValueError
         "Number of points must be at least the derivative order + 1.")
  else if (Np mod 2 =? 0)%Z
  then raise (ValueError "The number of points must be odd.")
  else
    let ho := Z.shiftr Np 1 in
    (* arange(-ho, ho + 1.0) *)
    let x := map (fun i => Q2Qc (inject_Z (Z.of_nat i - ho)))
                 (seq 0 (Z.to_nat (2 * ho + 1))) in
    (* the columns x**0.0, then x**k for k in range(1, Np) *)
    let powers := 0 :: seq 1 (Z.to_nat Np - 1) in
    let X := map (fun xi => map (fun k => Qcpower xi k) powers) x in
    Xinv <- linalg_inv (length x) (length powers) X ;;
    row <- getitem Xinv ndiv ;;
    ret (row_scale (factorial ndiv) row).

(** ** gradient *)

(** One item of an index tuple: [slice(None)] or an integer. *)
Inductive index_item : Type :=
| every
| at_ (c : nat).

(** Whether the index tuple [items] selects the entry at [idx]. *)
Fixpoint selects (items : list index_item) (idx : list nat) : bool :=
  match items, idx with
  | [], [] => true
  | every :: items', _ :: ix => selects items' ix
  | at_ c :: items', i :: ix => (i =? c) && selects items' ix
  | _, _ => false
  end.

(** The position of [idx] along the axis sliced by [items]. *)
Fixpoint slice_pos (items : list index_item) (idx : list nat) : nat :=
  match items, idx with
  | every :: _, i :: _ => i
  | _ :: items', _ :: ix => slice_pos items' ix
  | _, _ => 0
  end.

(** a[items] += vals, for an index tuple with one [slice(None)]. *)
Definition iadd (a : ndarray) (items : list index_item) (vals : list Qc)
  : ndarray :=
  build (a_shape a) (fun idx =>
    if selects items idx
    then (get a idx + nth (slice_pos items idx) vals (Q2Qc 0))%Qc
    else get a idx).

(** t[-n:] and t[:-n] for a tuple [t] and [n >= 0]; note [-0 = 0]. *)
Definition last_items {A : Type} (t : list A) (n : nat) : list A :=
  match n with
  | 0 => t
  | _ => skipn (length t - n) t
  end.

Definition but_last_items {A : Type} (t : list A) (n : nat) : list A :=
  match n with
  | 0 => []
  | _ => firstn (length t - n) t
  end.

(** float(s) ** derivative *)
Definition float_pow (s : Qc) (derivative : Z) : result Qc :=
  if (derivative <? 0)%Z
  then if Qc_eqb s (Q2Qc 0)
       then raise (ZeroDivisionError
                     "0.0 cannot be raised to a negative power")
       else ret (Qcpower (/ s)%Qc (Z.to_nat (- derivative)))
  else ret (Qcpower s (Z.to_nat derivative)).

(** The loop [for dim, s in step: kernel[...] += weights / s], where [step]
    enumerates the lazily computed [float(s) ** derivative].  When [s] is
    0.0 the program gets inf or nan entries, which [Qc] does not have: the
    quotient is 0 here, and the statements about the entries of the kernel
    assume [nonzero_step_powers]. *)
Fixpoint fill_kernel (derivative : Z) (weights : list Qc)
    (slc : list index_item) (step : list (nat * Qc)) (kernel : ndarray)
  : result ndarray :=
  match step with
  | [] => ret kernel
  | (dim, s0) :: step' =>
      s <- float_pow s0 derivative ;;
      fill_kernel derivative weights slc step'
        (iadd kernel (last_items slc dim ++ but_last_items slc dim)
              (map (fun w => (w / s)%Qc) weights))
  end.

Definition enumerate {A : Type} (l : list A) : list (nat * A) :=
  combine (seq 0 (length l)) l.

(** The body of [gradient] up to its last line: the checks and the kernel. *)
Definition gradient_kernel (derivative points : Z) (shape : list nat)
    (step : option (list Qc)) : result ndarray :=
  if existsb (fun s => (Z.of_nat s <? points)%Z) shape
  then raise (ValueError ("Shape's dims must have at least as many " ++
                          "points as central difference weights."))
  else
    step <- match step with
            | None => ret (repeat (Q2Qc 1) (length shape))
            | Some st =>
                if negb (length st =? length shape)
                then raise (ValueError
                       "Shape and step must have same ndims (length).")
                else ret st
            end ;;
    w <- central_diff_weights points derivative ;;
    let weights := rev w in
    let kernel := zeros (repeat (Z.to_nat points) (length shape)) in
    let slc := every :: repeat (at_ (Z.to_nat (points / 2))) (ndim kernel - 1) in
    fill_kernel derivative weights slc (enumerate step) kernel.

Definition gradient (derivative points : Z) (shape : list nat)
    (step : option (list Qc)) (order : string) : result LinearOperator :=
  kernel <- gradient_kernel derivative points shape step ;;
  convolve kernel shape order.

(** ** Closed forms used in the statements *)

(** The multi-index mirrored on every axis: [(n_1-1-i_1, ..., n_N-1-i_N)]. *)
Definition mirror (sh idx : list nat) : list nat :=
  zipWith (fun n i => n - 1 - i) sh idx.

(** The multi-index mirrored on its first [d] axes. *)
Fixpoint mirror_first (d : nat) (sh idx : list nat) : list nat :=
  match d, sh, idx with
  | S d', n :: ns, i :: ix => (n - 1 - i) :: mirror_first d' ns ix
  | _, _, _ => idx
  end.

(** [returns_vec r v]: the call [r] returned the 1-D array [v]. *)
Definition returns_vec (r : result ndarray) (v : list Qc) : bool :=
  match r with
  | inr y =>
      match a_shape y with
      | [n] => (n =? length v) && Qc_list_eqb (a_data y) v
      | _ => false
      end
  | inl _ => false
  end.

(** The rational [n / d]. *)
Definition frac (n : Z) (d : positive) : Qc := Q2Qc (n # d).

Definition num (n : Z) : Qc := Q2Qc (inject_Z n).

(** *** The example of the docstring of [convolve] *)

(** np.array([[-1, 1]]) *)
Definition example_kernel : ndarray := mkArr [1; 2] [num (-1); num 1].

(** np.ravel(np.linspace(1, 9, 9).reshape(3, 3)) *)
Definition example_image : list Qc :=
  map (fun n => num (Z.of_nat n)) (seq 1 9).

Definition example_convolved : list Qc :=
  map num [-1; -1; -1; -4; -1; -1; -7; -1; -1]%Z.

(** *** The example of the docstring of [gradient] *)

(** np.ravel(np.indices((5,6)).sum(0)**2 / 2.) *)
Definition example_field : list Qc :=
  map (fun idx => frac (Z.of_nat (list_sum idx) ^ 2) 2) (indices [5; 6]).

Definition example_gradient : list Qc :=
  [ frac 1 2;  num 2;  frac 17 4;  num 7;  frac 41 4;  num 5;
    num 2;     num 4;  num 6;      num 8;  num 10;     frac (-1) 4;
    frac 17 4; num 6;  num 8;      num 10; num 12;     num (-2);
    num 7;     num 8;  num 10;     num 12; num 14;     frac (-17) 4;
    num 4;     num 1;  frac (-1) 4; num (-2); frac (-17) 4; num (-32) ].

(** *** The "same" convolution in closed form *)

(** The entries dropped in front of each axis by [f_slice] and by [a_slice],
    for a kernel of shape [kshape]. *)
Definition f_starts (kshape : list nat) : list nat :=
  map (fun m => Z.to_nat ((Z.of_nat m - 1) / 2)) kshape.

Definition a_starts (kshape : list nat) : list nat :=
  map (fun m => Z.to_nat (Z.of_nat m / 2)) kshape.

(** The array of shape [sh] read from the flat vector [x]. *)
Definition unflat (order : string) (sh : list nat) (x : list Qc) : ndarray :=
  build sh (fun idx => nth (ravel_by order sh idx) x (Q2Qc 0)).

(** What one column [x] becomes: entry [t] of the answer is entry
    [starts + t] of the full convolution of [x], read as an array of shape
    [sh], with [k]. *)
Definition same_conv (k : ndarray) (starts sh : list nat) (order : string)
    (x : list Qc) : list Qc :=
  map (fun t => full_entry (unflat order sh x) k (zipWith Nat.add starts t))
      (indices_by order sh).

(** The batch whose column [j] is [g] of column [j] of [X]. *)
Definition map_columns (g : list Qc -> list Qc) (X : ndarray) : ndarray :=
  let cols := map (fun j => g (column X j)) (seq 0 (nth 1 (a_shape X) 0)) in
  build [nth 0 (a_shape X) 0; nth 1 (a_shape X) 0]
        (fun idx => nth (nth 0 idx 0) (nth (nth 1 idx 0) cols []) (Q2Qc 0)).

(** What a column becomes under the forward and under the adjoint function
    of the operator built from [kernel], [shape] and [order]. *)
Definition forward_conv (kernel : ndarray) (shape : list nat) (order : string)
  : list Qc -> list Qc :=
  same_conv kernel (f_starts (a_shape kernel)) shape order.

Definition adjoint_conv (kernel : ndarray) (shape : list nat) (order : string)
  : list Qc -> list Qc :=
  same_conv (__flip kernel) (a_starts (a_shape kernel)) shape order.

(** The slice tuples [f_slice] and [a_slice] of [convolve]. *)
Definition f_slice_of (kernel : ndarray) (shape : list nat) : list (Z * Z) :=
  map (fun d =>
         (((Z.of_nat (nth d (a_shape kernel) 0%nat) - 1) / 2)%Z,
          ((Z.of_nat (nth d (a_shape kernel) 0%nat) - 1) / 2
           + Z.of_nat (nth d shape 0%nat))%Z))
      (seq 0 (ndim kernel)).

Definition a_slice_of (kernel : ndarray) (shape : list nat) : list (Z * Z) :=
  map (fun d =>
         ((Z.of_nat (nth d (a_shape (__flip kernel)) 0%nat) / 2)%Z,
          (Z.of_nat (nth d (a_shape (__flip kernel)) 0%nat) / 2
           + Z.of_nat (nth d shape 0%nat))%Z))
      (seq 0 (ndim kernel)).

(** What [matvectorized] does to one column. *)
Definition on_column (shape : list nat) (order : string)
    (f : ndarray -> result ndarray) (x : list Qc) : result (list Qc) :=
  img <- reshape x shape order ;;
  out <- f img ;;
  ret (flatten out order).

(** ** Arrays as objects in a store

    numpy arrays are mutable objects.  The caller owns the kernel and the
    input vector; the closures of the operator keep a reference to the
    kernel, and to its flipped view, which shares the buffer of the kernel.
    [ST A] is a computation that reads and extends a store of arrays and may
    raise. *)

Definition addr : Type := nat.
Definition store : Type := list ndarray.
Definition ST (A : Type) : Type := store -> result (A * store).

Definition st_ret {A : Type} (a : A) : ST A := fun h => inr (a, h).

Definition st_bind {A B : Type} (m : ST A) (k : A -> ST B) : ST B :=
  fun h => match m h with
           | inl e => inl e
           | inr (a, h') => k a h'
           end.

Notation "x <~ m ;; k" := (st_bind m (fun x => k))
  (at level 61, m at next level, right associativity).

(** A computation that does not touch the store. *)
Definition lift {A : Type} (r : result A) : ST A :=
  fun h => match r with
           | inl e => inl e
           | inr a => inr (a, h)
           end.

(** The array stored at an address. *)
Definition load (a : addr) : ST ndarray :=
  fun h => match nth_error h a with
           | Some v => inr (v, h)
           | None => inl (TypeError "no array at this address")
           end.

(** A new array object. *)
Definition alloc (v : ndarray) : ST addr :=
  fun h => inr (length h, h ++ [v]).

(** The operator returned by [convolve], as an object: its shape and the
    data closed over by its two functions, that is [kernel] (and
    [adjoint_kernel], a view of the same buffer), the two slice tuples, and
    [shape] and [order] inside [mv].  The record is immutable; the kernel it
    points to is not. *)
Record operator : Type := mkOperator {
  o_shape : nat * nat;
  o_kernel : addr;
  o_f_slice : list (Z * Z);
  o_a_slice : list (Z * Z);
  o_dims : list nat;
  o_order : string
}.

(** [convolve], for a kernel that is an object of the caller. *)
Definition convolve_obj (kernel : addr) (shape : list nat) (order : string)
  : ST operator :=
  K <~ load kernel ;;
  op <~ lift (convolve K shape order) ;;
  st_ret (mkOperator (op_shape op) kernel (f_slice_of K shape)
                     (a_slice_of K shape) shape order).

(** The forward function of the operator: it reads the input and the
    kernel as they are in the store when it runs, and allocates its
    answer. *)
Definition apply_obj (o : operator) (x : addr) : ST addr :=
  X <~ load x ;;
  K <~ load (o_kernel o) ;;
  Y <~ lift (run_on (snd (o_shape o))
               (matvectorized (o_dims o) (o_order o)
                  (fun img => convSame img K (o_f_slice o))) X) ;;
  alloc Y.

(** The adjoint function: the kernel is read through its flipped view. *)
Definition applyAdjoint_obj (o : operator) (y : addr) : ST addr :=
  Y <~ load y ;;
  K <~ load (o_kernel o) ;;
  X <~ lift (run_on (fst (o_shape o))
               (matvectorized (o_dims o) (o_order o)
                  (fun img => convSame img (__flip K) (o_a_slice o))) Y) ;;
  alloc X.

(** What a run leaves to its caller: the exception, or the array returned. *)
Definition outcome (r : result (addr * store)) : result (option ndarray) :=
  match r with
  | inl e => inl e
  | inr (a, h) => inr (nth_error h a)
  end.


(** A store for the examples: the kernel of the docstring at address 0, its
    input vector at address 1. *)
Definition example_store : store := [example_kernel; vec example_image].

Definition example_operator : operator :=
  mkOperator (9, 9) 0 (f_slice_of example_kernel [3; 3])
             (a_slice_of example_kernel [3; 3]) [3; 3] "C".

(** The operator of the docstring of [convolve], written out. *)
Definition example_linop : LinearOperator :=
  mkLinearOperator (9, 9)
    (matvectorized [3; 3] "C"
       (fun img => convSame img example_kernel
                            (f_slice_of example_kernel [3; 3])))
    (matvectorized [3; 3] "C"
       (fun img => convSame img (__flip example_kernel)
                            (a_slice_of example_kernel [3; 3]))).

(** *** The matrix of the operator *)

(** Entry [(t, i)] of the matrix of the forward function, for a multi-index
    [t] of the output and [i] of the input: the kernel entry at
    [t + f_start - i] when that is an index of the kernel, and 0
    otherwise. *)
Definition coefficient (kernel : ndarray) (t i : list nat) : Qc :=
  let j := zipWith Nat.add (f_starts (a_shape kernel)) t in
  if le_idx i j && validb (a_shape kernel) (sub_idx j i)
  then get kernel (sub_idx j i)
  else Q2Qc 0.


(** A symmetric kernel of three entries, and a vector for it. *)
Definition example_stencil : ndarray := mkArr [3] [num 1; num (-2); num 1].

Definition example_signal : list Qc := map num [1; 4; 9; 16]%Z.

(** The operator of [convolve(example_stencil, (4,))], written out. *)
Definition stencil_linop : LinearOperator :=
  mkLinearOperator (4, 4)
    (matvectorized [4] "C"
       (fun img => convSame img example_stencil
                            (f_slice_of example_stencil [4])))
    (matvectorized [4] "C"
       (fun img => convSame img (__flip example_stencil)
                            (a_slice_of example_stencil [4]))).

(** The kernel with one entry [c], for arrays of [n] dimensions. *)
Definition unit_kernel (n : nat) (c : Qc) : ndarray := mkArr (repeat 1 n) [c].

(** The operator of [convolve(unit_kernel(2, 5), (3, 3))], written out. *)
Definition unit_linop : LinearOperator :=
  mkLinearOperator (9, 9)
    (matvectorized [3; 3] "C"
       (fun img => convSame img (unit_kernel 2 (num 5))
                            (f_slice_of (unit_kernel 2 (num 5)) [3; 3])))
    (matvectorized [3; 3] "C"
       (fun img => convSame img (__flip (unit_kernel 2 (num 5)))
                            (a_slice_of (unit_kernel 2 (num 5)) [3; 3]))).

(** *** The kernel of [gradient] in closed form *)

(** The steps [gradient] works with: 1.0 along every dimension when none is
    given. *)
Definition steps_of (step : option (list Qc)) (shape : list nat) : list Qc :=
  match step with
  | None => repeat (Q2Qc 1) (length shape)
  | Some st => st
  end.

(** No [float(s) ** derivative] is 0.0: every [weights / s] of the loop of
    [gradient] is then a division of numbers, with no inf or nan entry. *)
Definition nonzero_step_powers (derivative : Z) (steps : list Qc) : Prop :=
  Forall (fun s => Qcpower s (Z.to_nat derivative) <> Q2Qc 0) steps.

(** [on_axis dim c idx]: every component of [idx] but the one on axis [dim]
    is [c], so [idx] lies on the line through the centre along [dim]. *)
Fixpoint on_axis (dim c : nat) (idx : list nat) : bool :=
  match idx with
  | [] => true
  | i :: ix =>
      match dim with
      | 0 => forallb (fun j => j =? c) ix
      | S dim' => (i =? c) && on_axis dim' c ix
      end
  end.

(** The store of the examples after its owner has overwritten the two
    entries of the kernel. *)
Definition example_store_later : store :=
  [mkArr [1; 2] [num 1; num 1]; vec example_image].

(** *** Central differences *)

(** [eq_idx t i]: the same multi-index. *)
Definition eq_idx (t i : list nat) : bool :=
  (length t =? length i) && forallb (fun p => fst p =? snd p) (combine t i).

(** [agree_except dim t i]: [t] and [i] differ at most in their component
    on axis [dim]. *)
Fixpoint agree_except (dim : nat) (t i : list nat) : bool :=
  match t, i with
  | [], [] => true
  | a :: t', b :: i' =>
      match dim with
      | 0 => eq_idx t' i'
      | S dim' => (a =? b) && agree_except dim' t' i'
      end
  | _, _ => false
  end.

(** [within c dim t i]: [i] is [t] moved by at most [c] entries along axis
    [dim]. *)
Definition within (c dim : nat) (t i : list nat) : bool :=
  agree_except dim t i
  && (nth dim i 0 <=? c + nth dim t 0)
  && (nth dim t 0 <=? c + nth dim i 0).

(** The central difference along axis [dim] with the weights [w], of centre
    [c], over [s]: the coefficient of the input entry [i] in the output
    entry [t] is the weight at offset [i[dim] - t[dim]] from the centre. *)
Definition difference (w : list Qc) (c dim : nat) (s : Qc) (t i : list nat)
  : Qc :=
  if within c dim t i
  then (nth (c + nth dim i 0 - nth dim t 0)%nat w (Q2Qc 0) / s)%Qc
  else Q2Qc 0.

(** Closes a goal [exists e, r = inl e /\ ConfigurationError e] when [r]
    reduces to a [ValueError]. *)
Ltac raises_configuration_error :=
  eexists; split; [reflexivity|]; eexists; reflexivity.

(** * Properties *)

(** ** Sums *)

Section Sums.

Local Open Scope Qc_scope.

Lemma Qc_eqb_eq (a b : Qc) : Qc_eqb a b = true <-> a = b.
Proof.
  unfold Qc_eqb. rewrite Qeq_bool_iff. split.
  - apply Qc_is_canon.
  - intros ->. reflexivity.
Qed.

Lemma Qc_list_eqb_eq (l1 l2 : list Qc) : Qc_list_eqb l1 l2 = true -> l1 = l2.
Proof.
  revert l2. induction l1 as [|a l1 IH]; intros [|b l2]; simpl; try discriminate.
  - reflexivity.
  - rewrite andb_true_iff. intros [Hab Hl].
    apply Qc_eqb_eq in Hab. subst b. f_equal. now apply IH.
Qed.

Lemma sum_over_nil {A} (g : A -> Qc) : sum_over [] g = 0.
Proof. reflexivity. Qed.

Lemma sum_over_cons {A} (a : A) l (g : A -> Qc) :
  sum_over (a :: l) g = g a + sum_over l g.
Proof. reflexivity. Qed.

Lemma sum_over_ext {A} (l : list A) (g h : A -> Qc) :
  (forall a, In a l -> g a = h a) -> sum_over l g = sum_over l h.
Proof.
  intros H. unfold sum_over. f_equal. now apply map_ext_in.
Qed.

Lemma sum_over_zero {A} (l : list A) : sum_over l (fun _ => 0) = 0.
Proof.
  induction l as [|a l IH]; [reflexivity|].
  rewrite sum_over_cons, IH. ring.
Qed.

Lemma sum_over_plus {A} (l : list A) (g h : A -> Qc) :
  sum_over l (fun a => g a + h a) = sum_over l g + sum_over l h.
Proof.
  induction l as [|a l IH]; [rewrite !sum_over_nil; ring|].
  rewrite !sum_over_cons, IH. ring.
Qed.


Lemma sum_over_scale_r {A} (l : list A) (c : Qc) (g : A -> Qc) :
  sum_over l (fun a => g a * c) = sum_over l g * c.
Proof.
  induction l as [|a l IH]; [rewrite !sum_over_nil; ring|].
  rewrite !sum_over_cons, IH. ring.
Qed.

(** Two finite sums can be exchanged. *)
Lemma sum_over_swap {A B} (l1 : list A) (l2 : list B) (g : A -> B -> Qc) :
  sum_over l1 (fun a => sum_over l2 (fun b => g a b)) =
  sum_over l2 (fun b => sum_over l1 (fun a => g a b)).
Proof.
  induction l1 as [|a l1 IH].
  - rewrite sum_over_nil. symmetry. apply sum_over_zero.
  - rewrite sum_over_cons, IH, <- sum_over_plus. reflexivity.
Qed.


Lemma sum_over_map {A B} (f : A -> B) (l : list A) (g : B -> Qc) :
  sum_over (map f l) g = sum_over l (fun a => g (f a)).
Proof. unfold sum_over. now rewrite map_map. Qed.



End Sums.

(** ** Lists *)

Lemma map_nth_seq {A} (l : list A) (d : A) :
  map (fun p => nth p l d) (seq 0 (length l)) = l.
Proof.
  induction l as [|a l IH]; [reflexivity|].
  simpl. f_equal. rewrite <- seq_shift, map_map. exact IH.
Qed.

Lemma zipWith_length {A B C} (f : A -> B -> C) l1 l2 :
  length l1 = length l2 -> length (zipWith f l1 l2) = length l1.
Proof.
  revert l2. induction l1 as [|a l1 IH]; intros [|b l2]; simpl; try easy.
  intros H. f_equal. apply IH. lia.
Qed.

(** A comprehension over [range(len(l1))] reading two sequences by index is
    the pointwise combination of the sequences. *)
Lemma map_seq_zipWith {A B C} (f : A -> B -> C) (da : A) (db : B) l1 l2 :
  length l1 = length l2 ->
  map (fun d => f (nth d l1 da) (nth d l2 db)) (seq 0 (length l1)) =
  zipWith f l1 l2.
Proof.
  revert l2. induction l1 as [|a l1 IH]; intros [|b l2]; simpl; try easy.
  intros H. f_equal. rewrite <- seq_shift, map_map. apply IH. lia.
Qed.

Lemma mapM_ok {A B} (f : A -> result B) (g : A -> B) (l : list A) :
  (forall a, In a l -> f a = inr (g a)) -> mapM f l = inr (map g l).
Proof.
  induction l as [|a l IH]; intros H; [reflexivity|].
  simpl. rewrite (H a (or_introl eq_refl)). simpl.
  rewrite IH by (intros; apply H; now right). reflexivity.
Qed.

(** ** Multi-indices *)

Lemma valid_length sh idx : valid sh idx -> length idx = length sh.
Proof.
  revert idx. induction sh as [|n ns IH]; intros [|i ix]; simpl; try easy.
  intros [_ H]. f_equal. now apply IH.
Qed.

Lemma validb_valid sh idx : validb sh idx = true <-> valid sh idx.
Proof.
  revert idx. induction sh as [|n ns IH]; intros [|i ix]; simpl; try easy.
  rewrite andb_true_iff, Nat.ltb_lt, IH. reflexivity.
Qed.

Lemma valid_app sh1 sh2 i1 i2 :
  valid sh1 i1 -> valid sh2 i2 -> valid (sh1 ++ sh2) (i1 ++ i2).
Proof.
  revert i1. induction sh1 as [|n ns IH]; intros [|i ix]; simpl; try easy.
  intros [Hi H1] H2. split; [exact Hi|]. now apply IH.
Qed.

Lemma valid_app_inv sh1 sh2 i1 i2 :
  length i1 = length sh1 ->
  valid (sh1 ++ sh2) (i1 ++ i2) -> valid sh1 i1 /\ valid sh2 i2.
Proof.
  revert i1. induction sh1 as [|n ns IH]; intros [|i ix]; simpl; try easy.
  intros Hl [Hi H]. destruct (IH ix) as [H1 H2]; [lia|exact H|]. tauto.
Qed.

Lemma valid_rev_1 sh idx : valid sh idx -> valid (rev sh) (rev idx).
Proof.
  revert idx. induction sh as [|n ns IH]; intros [|i ix]; simpl; try easy.
  intros [Hi H]. apply valid_app; [now apply IH|simpl; tauto].
Qed.

Lemma valid_rev sh idx : valid sh idx <-> valid (rev sh) (rev idx).
Proof.
  split; [apply valid_rev_1|].
  intros H. apply valid_rev_1 in H. now rewrite !rev_involutive in H.
Qed.

Lemma indices_length sh : length (indices sh) = prod sh.
Proof.
  induction sh as [|n ns IH]; [reflexivity|].
  simpl. rewrite (flat_map_constant_length (c := prod ns)).
  - now rewrite length_seq.
  - intros i _. now rewrite length_map.
Qed.

Lemma in_indices sh idx : In idx (indices sh) <-> valid sh idx.
Proof.
  revert idx. induction sh as [|n ns IH]; intros idx; simpl.
  - destruct idx; simpl; split; try tauto; try discriminate.
    intros [H|[]]; discriminate.
  - rewrite in_flat_map. split.
    + intros (i & Hi & Hin). apply in_map_iff in Hin.
      destruct Hin as (ix & <- & Hix). apply in_seq in Hi.
      simpl. split; [lia|]. now apply IH.
    + destruct idx as [|i ix]; [easy|]. intros [Hi H].
      exists i. split; [apply in_seq; lia|].
      apply in_map. now apply IH.
Qed.

Lemma flat_map_seq_blocks (P s n : nat) :
  flat_map (fun i => seq (i * P) P) (seq s n) = seq (s * P) (n * P).
Proof.
  revert s. induction n as [|n IH]; intros s; [reflexivity|].
  simpl. rewrite IH, seq_app. do 2 f_equal. lia.
Qed.

Lemma map_seq_add_from (b m s : nat) :
  map (fun r => b + r) (seq s m) = seq (b + s) m.
Proof.
  revert s. induction m as [|m IH]; intros s; [reflexivity|].
  simpl. f_equal. rewrite IH. f_equal. lia.
Qed.

Lemma map_seq_add (b m : nat) :
  map (fun r => b + r) (seq 0 m) = seq b m.
Proof. rewrite map_seq_add_from. f_equal. lia. Qed.

(** The C-order enumeration lists the multi-indices by increasing flat
    position. *)
Lemma ravel_indices sh : map (ravel sh) (indices sh) = seq 0 (prod sh).
Proof.
  induction sh as [|n ns IH]; [reflexivity|].
  simpl. rewrite flat_map_concat_map, concat_map, map_map.
  rewrite <- flat_map_concat_map.
  pose proof (flat_map_seq_blocks (prod ns) 0 n) as E.
  rewrite Nat.mul_0_l in E. rewrite <- E. clear E.
  apply flat_map_ext. intros i.
  rewrite map_map. simpl.
  rewrite <- (map_map (ravel ns) (fun r => i * prod ns + r)), IH.
  apply map_seq_add.
Qed.

Lemma indices_NoDup sh : NoDup (indices sh).
Proof.
  apply (NoDup_map_inv (ravel sh)). rewrite ravel_indices. apply seq_NoDup.
Qed.

(** The flat position of a valid multi-index finds it in the enumeration. *)
Lemma nth_ravel_indices sh idx d :
  valid sh idx ->
  ravel sh idx < prod sh /\ nth (ravel sh idx) (indices sh) d = idx.
Proof.
  intros H. apply in_indices in H.
  destruct (In_nth _ _ d H) as (p & Hp & Hnth).
  rewrite indices_length in Hp.
  assert (ravel sh idx = p) as ->.
  { rewrite <- Hnth.
    rewrite <- (map_nth (ravel sh) (indices sh) d p).
    rewrite ravel_indices.
    rewrite (nth_indep _ _ 0) by (rewrite length_seq; exact Hp).
    now rewrite seq_nth. }
  split; assumption.
Qed.

Lemma prod_app sh1 sh2 : prod (sh1 ++ sh2) = prod sh1 * prod sh2.
Proof.
  induction sh1 as [|n ns IH]; simpl; [lia|]. rewrite IH. lia.
Qed.

Lemma prod_rev sh : prod (rev sh) = prod sh.
Proof.
  induction sh as [|n ns IH]; [reflexivity|].
  simpl. rewrite prod_app, IH. simpl. lia.
Qed.

Lemma prod_pos sh : Forall (fun n => 0 < n) sh -> 0 < prod sh.
Proof.
  induction 1 as [|n ns Hn _ IH]; simpl; [lia|]. nia.
Qed.

(** *** The two index orders *)

Lemma indices_by_length order sh : length (indices_by order sh) = prod sh.
Proof.
  unfold indices_by. destruct (fortran order).
  - now rewrite length_map, indices_length, prod_rev.
  - apply indices_length.
Qed.

Lemma in_indices_by order sh idx :
  In idx (indices_by order sh) <-> valid sh idx.
Proof.
  unfold indices_by. destruct (fortran order); [|apply in_indices].
  rewrite in_map_iff. split.
  - intros (j & <- & Hj). apply in_indices in Hj.
    apply valid_rev. now rewrite rev_involutive.
  - intros H. exists (rev idx). split; [apply rev_involutive|].
    apply in_indices. now apply valid_rev in H.
Qed.

(** Either enumeration lists the multi-indices by increasing position in
    the flat vector. *)
Lemma ravel_indices_by order sh :
  map (ravel_by order sh) (indices_by order sh) = seq 0 (prod sh).
Proof.
  unfold ravel_by, indices_by. destruct (fortran order).
  - rewrite map_map. rewrite <- (prod_rev sh), <- ravel_indices.
    apply map_ext. intros j. now rewrite rev_involutive.
  - apply ravel_indices.
Qed.



(** A vector of the right length is the tabulation of its own entries. *)
Lemma vector_by_positions order sh (v : list Qc) :
  length v = prod sh ->
  map (fun idx => nth (ravel_by order sh idx) v (Q2Qc 0)) (indices_by order sh)
  = v.
Proof.
  intros H.
  rewrite <- (map_map (ravel_by order sh) (fun p => nth p v (Q2Qc 0))).
  rewrite ravel_indices_by, <- H. apply map_nth_seq.
Qed.

(** ** Arrays *)

Lemma build_shape sh f : a_shape (build sh f) = sh.
Proof. reflexivity. Qed.

Lemma build_wf sh f : wf (build sh f).
Proof. unfold wf, build. simpl. now rewrite length_map, indices_length. Qed.

Lemma get_build sh f idx : valid sh idx -> get (build sh f) idx = f idx.
Proof.
  intros H. unfold get, build. simpl.
  destruct (nth_ravel_indices sh idx idx H) as [Hlt Hnth].
  rewrite (nth_indep _ _ (f idx))
    by (now rewrite length_map, indices_length).
  now rewrite map_nth, Hnth.
Qed.

Lemma build_ext sh f g :
  (forall idx, valid sh idx -> f idx = g idx) -> build sh f = build sh g.
Proof.
  intros H. unfold build. f_equal. apply map_ext_in.
  intros idx Hin. apply H. now apply in_indices.
Qed.

Lemma build_get a : wf a -> build (a_shape a) (get a) = a.
Proof.
  destruct a as [sh dat]. unfold wf, build, get. simpl. intros H. f_equal.
  rewrite <- (map_map (ravel sh) (fun p => nth p dat (Q2Qc 0))).
  rewrite ravel_indices, <- H. apply map_nth_seq.
Qed.

(** Two well-formed arrays of one shape with the same entries are equal. *)
Lemma ndarray_ext a b :
  wf a -> wf b -> a_shape a = a_shape b ->
  (forall idx, valid (a_shape a) idx -> get a idx = get b idx) ->
  a = b.
Proof.
  intros Ha Hb Hs H.
  rewrite <- (build_get a Ha), <- (build_get b Hb), <- Hs.
  now apply build_ext.
Qed.

(** ** Reversal of the axes *)

Lemma reverse_at_valid d sh idx :
  valid sh idx -> valid sh (reverse_at d sh idx).
Proof.
  revert d idx. induction sh as [|n ns IH]; intros d [|i ix]; simpl; try easy.
  intros [Hi H]. destruct d as [|d]; simpl.
  - split; [lia|exact H].
  - split; [exact Hi|]. now apply IH.
Qed.

Lemma mirror_first_valid d sh idx :
  valid sh idx -> valid sh (mirror_first d sh idx).
Proof.
  revert sh idx. induction d as [|d IH]; intros [|n ns] [|i ix]; simpl; try easy.
  intros [Hi H]. split; [lia|]. now apply IH.
Qed.

Lemma mirror_first_reverse_at d sh idx :
  length idx = length sh ->
  mirror_first d sh (reverse_at d sh idx) = mirror_first (S d) sh idx.
Proof.
  revert sh idx. induction d as [|d IH]; intros [|n ns] [|i ix]; simpl; try easy.
  intros Hl. f_equal. apply (IH ns ix). lia.
Qed.

Lemma mirror_first_all sh idx :
  length idx = length sh -> mirror_first (length sh) sh idx = mirror sh idx.
Proof.
  revert idx. induction sh as [|n ns IH]; intros [|i ix]; simpl; try easy.
  intros Hl. unfold mirror. simpl. f_equal. apply IH. lia.
Qed.

Lemma mirror_valid sh idx : valid sh idx -> valid sh (mirror sh idx).
Proof.
  intros H. rewrite <- mirror_first_all by now apply valid_length.
  now apply mirror_first_valid.
Qed.

Lemma mirror_involutive sh idx :
  valid sh idx -> mirror sh (mirror sh idx) = idx.
Proof.
  unfold mirror.
  revert idx. induction sh as [|n ns IH]; intros [|i ix]; simpl; try easy.
  intros [Hi H]. f_equal; [lia|now apply IH].
Qed.

(** The state of the loop of [__flip] after [d] rounds. *)
Lemma flip_loop d a :
  let b := fold_left (fun acc d => reverse_axis d acc) (seq 0 d) a in
  a_shape b = a_shape a /\
  (wf a -> wf b) /\
  forall idx, valid (a_shape a) idx ->
              get b idx = get a (mirror_first d (a_shape a) idx).
Proof.
  induction d as [|d IH]; intros b; subst b.
  - simpl. repeat split; tauto.
  - rewrite seq_S, fold_left_app. cbn [fold_left Nat.add].
    destruct IH as (Hs & Hwf & Hget).
    set (b := fold_left _ (seq 0 d) a) in *.
    repeat split.
    + exact Hs.
    + intros _. apply build_wf.
    + intros idx Hv. unfold reverse_axis. rewrite Hs.
      rewrite get_build by exact Hv.
      rewrite Hget by now apply reverse_at_valid.
      f_equal. apply mirror_first_reverse_at. now apply valid_length.
Qed.

Lemma flip_shape a : a_shape (__flip a) = a_shape a.
Proof. apply (flip_loop (ndim a) a). Qed.

Lemma flip_wf a : wf a -> wf (__flip a).
Proof. apply (flip_loop (ndim a) a). Qed.

Lemma flip_get a idx :
  valid (a_shape a) idx ->
  get (__flip a) idx = get a (mirror (a_shape a) idx).
Proof.
  intros H. unfold __flip.
  destruct (flip_loop (ndim a) a) as (_ & _ & Hget).
  rewrite Hget by exact H.
  f_equal. apply mirror_first_all. now apply valid_length.
Qed.

(** C10: [__flip] reverses every axis of its argument:
    [__flip(a)[i_1, ..., i_N] = a[n_1-1-i_1, ..., n_N-1-i_N]] with
    [(n_1, ..., n_N) = a.shape]; consequently [__flip] is an involution. *)
Theorem flip_reverses_every_axis (a : ndarray) :
  wf a ->
  a_shape (__flip a) = a_shape a /\
  (forall idx, valid (a_shape a) idx ->
               get (__flip a) idx = get a (mirror (a_shape a) idx)) /\
  __flip (__flip a) = a.
Proof.
  intros Hwf. split; [apply flip_shape|]. split; [apply flip_get|].
  apply ndarray_ext.
  - now apply flip_wf, flip_wf.
  - exact Hwf.
  - now rewrite !flip_shape.
  - intros idx Hv. rewrite !flip_shape in Hv.
    rewrite flip_get by (now rewrite flip_shape).
    rewrite flip_shape.
    rewrite flip_get by now apply mirror_valid.
    f_equal. now apply mirror_involutive.
Qed.

(** ** Validation at construction time *)

Lemma valid_order_In order :
  valid_order order = true <-> In order ["C"; "F"; "A"]%string.
Proof.
  unfold valid_order. rewrite !orb_true_iff, !String.eqb_eq. simpl.
  intuition congruence.
Qed.

(** C5: [convolve] fails with a configuration error, at construction time,
    exactly when [kernel.ndim] differs from [len(shape)] or [order] is not
    one of 'C', 'F', 'A'. *)
Theorem convolve_validation (kernel : ndarray) (shape : list nat)
    (order : string) :
  (ndim kernel <> length shape \/ ~ In order ["C"; "F"; "A"]%string) <->
  (exists e, convolve kernel shape order = inl e /\ ConfigurationError e).
Proof.
  unfold convolve.
  destruct (ndim kernel =? length shape) eqn:Hdim; simpl.
  - apply Nat.eqb_eq in Hdim.
    destruct (valid_order order) eqn:Hord; simpl.
    + apply valid_order_In in Hord. split; [tauto|].
      intros (e & He & msg & ->). exfalso.
      destruct shape as [|n ns]; simpl in He; discriminate.
    + split.
      * intros _. raises_configuration_error.
      * intros _. right. intros Hin.
        apply (proj2 (valid_order_In order)) in Hin. congruence.
  - apply Nat.eqb_neq in Hdim. split; [|tauto].
    intros _. raises_configuration_error.
Qed.

(** C6: [gradient] fails with a configuration error, at construction time,
    when [points] does not exceed [derivative], or when a step is given
    whose length differs from [len(shape)]. *)
Theorem gradient_validation (derivative points : Z) (shape : list nat)
    (step : option (list Qc)) (order : string) :
  (points <= derivative)%Z \/
  (exists st, step = Some st /\ length st <> length shape) ->
  exists e, gradient derivative points shape step order = inl e /\
            ConfigurationError e.
Proof.
  intros H. unfold gradient, gradient_kernel.
  destruct (existsb _ shape).
  { raises_configuration_error. }
  destruct step as [st|].
  - destruct (length st =? length shape) eqn:Hlen; simpl.
    + apply Nat.eqb_eq in Hlen.
      destruct H as [H|(st' & [= <-] & H)]; [|contradiction].
      unfold central_diff_weights.
      replace (points <? derivative + 1)%Z with true
        by (symmetry; apply Z.ltb_lt; lia).
      raises_configuration_error.
    + raises_configuration_error.
  - destruct H as [H|(st' & [=] & _)]. simpl.
    unfold central_diff_weights.
    replace (points <? derivative + 1)%Z with true
      by (symmetry; apply Z.ltb_lt; lia).
    raises_configuration_error.
Qed.

(** C8: when some dimension of [shape] is smaller than [points], [gradient]
    fails at construction time with its own message, whatever the other
    arguments are. *)
Theorem gradient_shape_guard (derivative points : Z) (shape : list nat)
    (step : option (list Qc)) (order : string) (s : nat) :
  In s shape -> (Z.of_nat s < points)%Z ->
  gradient derivative points shape step order =
  inl (ValueError "Shape's dims must have at least as many points as central difference weights.").
Proof.
  intros Hin Hlt. unfold gradient, gradient_kernel.
  replace (existsb _ shape) with true; [reflexivity|].
  symmetry. apply existsb_exists. exists s. split; [exact Hin|].
  now apply Z.ltb_lt.
Qed.

(** C9: leaving [step] out is the same as passing a step of 1.0 along every
    dimension: the two calls return the same error or the same operator. *)
Theorem gradient_default_step (derivative points : Z) (shape : list nat)
    (order : string) :
  gradient derivative points shape None order =
  gradient derivative points shape
           (Some (repeat (Q2Qc 1) (length shape))) order.
Proof.
  unfold gradient, gradient_kernel.
  rewrite repeat_length, Nat.eqb_refl. reflexivity.
Qed.

(** ** The worked examples *)

Lemma returns_vec_ok (r : result ndarray) (v : list Qc) :
  returns_vec r v = true -> r = inr (vec v).
Proof.
  unfold returns_vec, vec. destruct r as [e|[sh dat]]; [discriminate|].
  simpl. destruct sh as [|n [|m sh]]; try discriminate.
  rewrite andb_true_iff, Nat.eqb_eq. intros [-> H].
  apply Qc_list_eqb_eq in H. now subst.
Qed.

Lemma example_apply :
  LinearOperator_apply example_linop (vec example_image) =
  inr (vec example_convolved).
Proof. apply returns_vec_ok. vm_compute. reflexivity. Qed.

(** C2: the operator [convolve([[-1, 1]], (3, 3), 'C')] sends the row-major
    flattening of the 3x3 array of 1..9 to
    [-1, -1, -1, -4, -1, -1, -7, -1, -1]. *)
Theorem convolve_literal :
  exists C, convolve example_kernel [3; 3] "C" = inr C /\
            LinearOperator_apply C (vec example_image) =
            inr (vec example_convolved).
Proof.
  exists example_linop. split; [reflexivity|exact example_apply].
Qed.

(** C3: the operator [gradient(1, 3, (5, 6))], with the default step and
    order, sends the row-major flattening of
    [indices((5,6)).sum(0)**2 / 2] to the array of the docstring, whose
    first row is [0.5, 2., 4.25, 7., 10.25, 5.]. *)
Theorem gradient_literal :
  exists grad, gradient 1 3 [5; 6] None "C" = inr grad /\
               LinearOperator_apply grad (vec example_field) =
               inr (vec example_gradient) /\
               firstn 6 example_gradient =
               [frac 1 2; num 2; frac 17 4; num 7; frac 41 4; num 5].
Proof.
  assert (H : match gradient 1 3 [5; 6] None "C" with
              | inr grad =>
                  returns_vec (LinearOperator_apply grad (vec example_field))
                              example_gradient
              | inl _ => false
              end = true) by (vm_compute; reflexivity).
  destruct (gradient 1 3 [5; 6] None "C") as [e|grad]; [discriminate|].
  exists grad. split; [reflexivity|]. split; [|reflexivity].
  now apply returns_vec_ok.
Qed.

(** ** Slices of the full convolution *)

Lemma slice_bounds_forward (m n : nat) :
  0 < m ->
  slice_bounds (((Z.of_nat m - 1) / 2)%Z,
                ((Z.of_nat m - 1) / 2 + Z.of_nat n)%Z) (n + m - 1) =
  (Z.to_nat ((Z.of_nat m - 1) / 2), n).
Proof.
  intros Hm. unfold slice_bounds, adjust. cbn [fst snd].
  set (fs := ((Z.of_nat m - 1) / 2)%Z).
  assert (0 <= fs <= Z.of_nat m - 1)%Z as Hfs
    by (subst fs; Z.div_mod_to_equations; lia).
  destruct (Z.ltb_spec fs 0); [lia|].
  destruct (Z.ltb_spec (fs + Z.of_nat n) 0); [lia|].
  f_equal; lia.
Qed.

Lemma slice_bounds_adjoint (m n : nat) :
  0 < m ->
  slice_bounds ((Z.of_nat m / 2)%Z, (Z.of_nat m / 2 + Z.of_nat n)%Z)
               (n + m - 1) =
  (Z.to_nat (Z.of_nat m / 2), n).
Proof.
  intros Hm. unfold slice_bounds, adjust. cbn [fst snd].
  set (s := (Z.of_nat m / 2)%Z).
  assert (0 <= s <= Z.of_nat m - 1)%Z as Hs
    by (subst s; Z.div_mod_to_equations; lia).
  destruct (Z.ltb_spec s 0); [lia|].
  destruct (Z.ltb_spec (s + Z.of_nat n) 0); [lia|].
  f_equal; lia.
Qed.

(** The slice plan of a tuple of slices that keeps [n] entries from
    position [start m] on, on an axis of the full convolution. *)
Lemma slice_plan (start : nat -> Z) (kshape sh : list nat) :
  length kshape = length sh ->
  Forall (fun m => 0 < m) kshape ->
  (forall m n, 0 < m ->
     slice_bounds (start m, (start m + Z.of_nat n)%Z) (n + m - 1) =
     (Z.to_nat (start m), n)) ->
  zipWith slice_bounds
    (map (fun d => (start (nth d kshape 0),
                    (start (nth d kshape 0%nat) + Z.of_nat (nth d sh 0%nat))%Z))
         (seq 0 (length kshape)))
    (zipWith (fun n m => n + m - 1) sh kshape) =
  combine (map (fun m => Z.to_nat (start m)) kshape) sh.
Proof.
  intros Hlen Hpos Hb.
  rewrite (map_seq_zipWith
             (fun m n => (start m, (start m + Z.of_nat n)%Z)) 0 0 kshape sh Hlen).
  revert sh Hlen. induction Hpos as [|m ms Hm _ IH]; intros [|n ns]; simpl;
    try easy.
  intros Hlen. rewrite Hb by exact Hm. f_equal. apply IH. lia.
Qed.

Lemma combine_fst {A B} (l1 : list A) (l2 : list B) :
  length l1 = length l2 -> map fst (combine l1 l2) = l1.
Proof.
  revert l2. induction l1 as [|a l1 IH]; intros [|b l2]; simpl; try easy.
  intros H. f_equal. apply IH. lia.
Qed.

Lemma combine_snd {A B} (l1 : list A) (l2 : list B) :
  length l1 = length l2 -> map snd (combine l1 l2) = l2.
Proof.
  revert l2. induction l1 as [|a l1 IH]; intros [|b l2]; simpl; try easy.
  intros H. f_equal. apply IH. lia.
Qed.

(** A multi-index of the kept block, shifted by the starts, is a
    multi-index of the full convolution. *)
Lemma shifted_valid (start : nat -> nat) (kshape sh t : list nat) :
  length kshape = length sh ->
  (forall m, 0 < m -> start m <= m - 1) ->
  Forall (fun m => 0 < m) kshape ->
  valid sh t ->
  valid (zipWith (fun n m => n + m - 1) sh kshape)
        (zipWith Nat.add (map start kshape) t).
Proof.
  intros Hlen Hstart Hpos. revert sh t Hlen.
  induction Hpos as [|m ms Hm _ IH]; intros [|n ns] [|i ix]; simpl; try easy.
  intros Hlen [Hi Hv]. split.
  - specialize (Hstart m Hm). lia.
  - apply IH; [lia|exact Hv].
Qed.

(** [convSame] on an image of shape [sh], for a slice that keeps the block
    of shape [sh] starting at [starts]. *)
Lemma convSame_block (img k : ndarray) (slc : list (Z * Z))
    (starts : list nat) :
  ndim img = ndim k ->
  0 < size img -> 0 < size k ->
  length slc = ndim img ->
  length starts = ndim img ->
  zipWith slice_bounds slc
          (zipWith (fun n m => n + m - 1) (a_shape img) (a_shape k)) =
  combine starts (a_shape img) ->
  (forall t, valid (a_shape img) t ->
     valid (zipWith (fun n m => n + m - 1) (a_shape img) (a_shape k))
           (zipWith Nat.add starts t)) ->
  convSame img k slc =
  inr (build (a_shape img)
             (fun t => full_entry img k (zipWith Nat.add starts t))).
Proof.
  intros Hdim Himg Hk Hslc Hst Hplan Hvalid.
  unfold convSame, signal_convolve_full.
  rewrite Hdim, Nat.eqb_refl.
  destruct (Nat.eqb_spec (size img) 0) as [E|_]; [lia|].
  destruct (Nat.eqb_spec (size k) 0) as [E|_]; [lia|].
  cbn [negb orb bind ret]. unfold getslice.
  unfold ndim at 1. rewrite build_shape.
  rewrite zipWith_length by exact Hdim.
  fold (ndim img). rewrite Hslc, Nat.ltb_irrefl.
  rewrite skipn_all2 by (rewrite zipWith_length by exact Hdim; apply Nat.le_refl).
  cbn [map]. rewrite app_nil_r.
  rewrite Hplan, combine_fst, combine_snd by exact Hst.
  unfold ret. f_equal. apply build_ext. intros t Ht.
  rewrite get_build by now apply Hvalid. reflexivity.
Qed.

(** ** The operator built by [convolve] *)

Lemma reduce_mul_prod shape :
  shape <> [] -> reduce_mul shape = inr (prod shape).
Proof.
  destruct shape as [|n ns]; [easy|]. intros _. simpl. unfold ret. f_equal.
  revert n. induction ns as [|m ns IH]; intros n; simpl; [lia|].
  rewrite IH. simpl. lia.
Qed.

(** What a successful call of [convolve] has checked and what it returns. *)
Lemma convolve_inr kernel shape order op :
  convolve kernel shape order = inr op ->
  ndim kernel = length shape /\ valid_order order = true /\ shape <> [] /\
  op = mkLinearOperator (prod shape, prod shape)
         (matvectorized shape order
            (fun img => convSame img kernel (f_slice_of kernel shape)))
         (matvectorized shape order
            (fun img => convSame img (__flip kernel)
                                 (a_slice_of kernel shape))).
Proof.
  unfold convolve.
  destruct (Nat.eqb_spec (ndim kernel) (length shape)) as [Hdim|]; [|easy].
  destruct (valid_order order); [|easy]. cbn [negb].
  destruct shape as [|n ns]; [easy|].
  rewrite reduce_mul_prod by easy. cbn [bind ret].
  intros [= <-]. repeat split; easy.
Qed.

Lemma convolve_succeeds kernel shape order :
  ndim kernel = length shape -> valid_order order = true -> shape <> [] ->
  exists op, convolve kernel shape order = inr op.
Proof.
  intros Hdim Hord Hne. unfold convolve.
  rewrite Hdim, Nat.eqb_refl, Hord. cbn [negb].
  rewrite reduce_mul_prod by exact Hne. cbn [bind ret]. eexists. reflexivity.
Qed.

Lemma column_length X j : length (column X j) = nth 0 (a_shape X) 0.
Proof. unfold column. now rewrite length_map, length_seq. Qed.

(** [matvectorized] on a batch, for a function that succeeds on every
    column. *)
Lemma matvectorized_batch shape order f (g : list Qc -> list Qc) X n :
  a_shape X = [prod shape; n] ->
  (forall x, length x = prod shape ->
             on_column shape order f x = inr (g x) /\
             length (g x) = prod shape) ->
  matvectorized shape order f X = inr (map_columns g X).
Proof.
  intros HX Hg. unfold matvectorized. rewrite HX.
  assert (Hcol : forall j, length (column X j) = prod shape).
  { intros j. rewrite column_length, HX. reflexivity. }
  fold (on_column shape order f).
  rewrite (mapM_ok _ (fun j => g (column X j))); cycle 1.
  { intros j _. unfold on_column. apply (Hg (column X j)), Hcol. }
  cbn [bind]. unfold column_stack, map_columns. rewrite HX. cbn [nth].
  set (cols := map _ (seq 0 n)).
  assert (Hr : match cols with [] => prod shape | c :: _ => length c end
               = prod shape).
  { subst cols. destruct n as [|n]; [reflexivity|]. simpl.
    apply Hg, Hcol. }
  rewrite Hr.
  assert (Hall : forallb (fun c => length c =? prod shape) cols = true).
  { apply forallb_forall. intros c Hc. subst cols.
    apply in_map_iff in Hc. destruct Hc as (j & <- & _).
    apply Nat.eqb_eq, Hg, Hcol. }
  rewrite Hall. unfold ret. do 2 f_equal.
  subst cols. now rewrite length_map, length_seq.
Qed.

(** The shape and the columns of a batch mapped column by column. *)
Lemma map_columns_shape g X r n :
  a_shape X = [r; n] -> a_shape (map_columns g X) = [r; n].
Proof. intros HX. unfold map_columns. now rewrite HX. Qed.

Lemma map_columns_column g X r n j :
  a_shape X = [r; n] -> j < n ->
  length (g (column X j)) = r ->
  column (map_columns g X) j = g (column X j).
Proof.
  intros HX Hj Hlen. unfold column at 1.
  rewrite (map_columns_shape g X r n HX). cbn [nth].
  etransitivity; [|apply (map_nth_seq (g (column X j)) (Q2Qc 0))].
  rewrite Hlen.
  apply map_ext_in. intros i Hi. apply in_seq in Hi.
  unfold map_columns. rewrite HX. cbn [nth].
  rewrite get_build by (simpl; lia). cbn [nth].
  rewrite (nth_indep _ [] (g (column X 0)))
    by (now rewrite length_map, length_seq).
  rewrite (map_nth (fun j => g (column X j))).
  now rewrite seq_nth.
Qed.

Lemma unflat_shape order sh x : a_shape (unflat order sh x) = sh.
Proof. reflexivity. Qed.

(** One column through [mv(convSame)], for a slice that keeps the block of
    shape [shape] starting at [starts]. *)
Lemma conv_column k (slc : list (Z * Z)) starts shape order x :
  ndim k = length shape ->
  Forall (fun n => 0 < n) shape -> Forall (fun m => 0 < m) (a_shape k) ->
  length slc = length shape ->
  length starts = length shape ->
  zipWith slice_bounds slc
          (zipWith (fun n m => n + m - 1) shape (a_shape k)) =
  combine starts shape ->
  (forall t, valid shape t ->
     valid (zipWith (fun n m => n + m - 1) shape (a_shape k))
           (zipWith Nat.add starts t)) ->
  length x = prod shape ->
  on_column shape order (fun img => convSame img k slc) x =
    inr (same_conv k starts shape order x) /\
  length (same_conv k starts shape order x) = prod shape.
Proof.
  intros Hdim Hsh Hk Hslc Hst Hplan Hvalid Hx. split.
  - unfold on_column, reshape. rewrite Hx, Nat.eqb_refl. cbn [bind ret].
    fold (unflat order shape x).
    rewrite (convSame_block (unflat order shape x) k slc starts);
      rewrite ?unflat_shape; unfold ndim, size; rewrite ?unflat_shape;
      try assumption; try (now apply prod_pos); try now symmetry.
    cbn [bind]. unfold ret, flatten, same_conv. f_equal.
    rewrite build_shape. apply map_ext_in. intros t Ht.
    apply in_indices_by in Ht. now rewrite get_build.
  - unfold same_conv. now rewrite length_map, indices_by_length.
Qed.

Lemma f_starts_length ks : length (f_starts ks) = length ks.
Proof. unfold f_starts. apply length_map. Qed.

Lemma a_starts_length ks : length (a_starts ks) = length ks.
Proof. unfold a_starts. apply length_map. Qed.

Lemma f_slice_length kernel shape : length (f_slice_of kernel shape) = ndim kernel.
Proof. unfold f_slice_of. now rewrite length_map, length_seq. Qed.

Lemma a_slice_length kernel shape : length (a_slice_of kernel shape) = ndim kernel.
Proof. unfold a_slice_of. now rewrite length_map, length_seq. Qed.

Section Convolve.

Variables (kernel : ndarray) (shape : list nat) (order : string).
Hypothesis Hdim : ndim kernel = length shape.
Hypothesis Hkernel : Forall (fun m => 0 < m) (a_shape kernel).
Hypothesis Hshape : Forall (fun n => 0 < n) shape.

(** A column through the forward function of the operator. *)
Lemma forward_column x :
  length x = prod shape ->
  on_column shape order
    (fun img => convSame img kernel (f_slice_of kernel shape)) x =
    inr (same_conv kernel (f_starts (a_shape kernel)) shape order x) /\
  length (same_conv kernel (f_starts (a_shape kernel)) shape order x)
  = prod shape.
Proof.
  apply conv_column; try assumption.
  - now rewrite f_slice_length.
  - now rewrite f_starts_length.
  - unfold f_slice_of, ndim, f_starts.
    apply (slice_plan (fun m => ((Z.of_nat m - 1) / 2)%Z));
      [exact Hdim|exact Hkernel|].
    intros m n Hm. now apply slice_bounds_forward.
  - intros t Ht. unfold f_starts. apply shifted_valid; try assumption.
    intros m Hm. Z.div_mod_to_equations. lia.
Qed.

(** A column through the adjoint function of the operator. *)
Lemma adjoint_column y :
  length y = prod shape ->
  on_column shape order
    (fun img => convSame img (__flip kernel) (a_slice_of kernel shape)) y =
    inr (same_conv (__flip kernel) (a_starts (a_shape kernel)) shape order y) /\
  length (same_conv (__flip kernel) (a_starts (a_shape kernel)) shape order y)
  = prod shape.
Proof.
  apply conv_column; unfold ndim; rewrite ?flip_shape; try assumption.
  - now rewrite a_slice_length.
  - now rewrite a_starts_length.
  - unfold a_slice_of, ndim, a_starts. rewrite flip_shape.
    apply (slice_plan (fun m => (Z.of_nat m / 2)%Z));
      [exact Hdim|exact Hkernel|].
    intros m n Hm. now apply slice_bounds_adjoint.
  - intros t Ht. unfold a_starts. apply shifted_valid; try assumption.
    intros m Hm. Z.div_mod_to_equations. lia.
Qed.

End Convolve.

(** ** Applying an operator *)


Lemma run_on_vec need f x Y :
  length x = need -> f (mkArr [need; 1] x) = inr Y ->
  run_on need f (vec x) = inr (vec (a_data Y)).
Proof.
  intros Hx HY. unfold run_on, ensure2dColumn, vec. cbn [a_shape a_data].
  rewrite Hx, Nat.eqb_refl, HY. reflexivity.
Qed.

(** The buffer of a one-column batch is its column. *)
Lemma column_of_single Y r :
  wf Y -> a_shape Y = [r; 1] -> column Y 0 = a_data Y.
Proof.
  unfold wf, column, get. intros Hwf HY. rewrite HY in *. cbn [nth].
  simpl in Hwf.
  etransitivity; [|apply (map_nth_seq (a_data Y) (Q2Qc 0))].
  rewrite Hwf. replace (r * 1) with r by lia.
  apply map_ext. intros i. f_equal. simpl. lia.
Qed.

Lemma map_columns_single g X r :
  a_shape X = [r; 1] -> length (g (column X 0)) = r ->
  a_data (map_columns g X) = g (column X 0).
Proof.
  intros HX Hlen.
  rewrite <- (column_of_single (map_columns g X) r).
  - apply (map_columns_column g X r 1 0); [exact HX|lia|exact Hlen].
  - apply build_wf.
  - now apply map_columns_shape.
Qed.

Lemma column_vec x : column (mkArr [length x; 1] x) 0 = x.
Proof.
  apply (column_of_single (mkArr [length x; 1] x) (length x)); [|reflexivity].
  unfold wf. simpl. lia.
Qed.

Section Operator.

Variables (kernel : ndarray) (shape : list nat) (order : string).
Variable op : LinearOperator.
Hypothesis Hop : convolve kernel shape order = inr op.
Hypothesis Hkernel : Forall (fun m => 0 < m) (a_shape kernel).
Hypothesis Hshape : Forall (fun n => 0 < n) shape.



Lemma apply_vec x :
  length x = prod shape ->
  LinearOperator_apply op (vec x) =
  inr (vec (forward_conv kernel shape order x)).
Proof.
  intros Hx. destruct (convolve_inr _ _ _ _ Hop) as (Hdim & _ & _ & ->).
  unfold LinearOperator_apply. cbn [op_shape op_forward snd].
  pose (g := forward_conv kernel shape order).
  assert (Hg : forall x', length x' = prod shape ->
            on_column shape order
              (fun img => convSame img kernel (f_slice_of kernel shape)) x'
              = inr (g x') /\
            length (g x') = prod shape)
    by (intros x' Hx'; now apply forward_column).
  fold g.
  rewrite (run_on_vec _ _ x (map_columns g (mkArr [prod shape; 1] x)) Hx).
  - rewrite (map_columns_single g _ (prod shape)); [|reflexivity|].
    + rewrite <- Hx at 1. now rewrite column_vec.
    + rewrite <- Hx at 1. rewrite column_vec. now apply Hg.
  - now apply (matvectorized_batch _ _ _ g _ 1).
Qed.

Lemma applyAdjoint_vec y :
  length y = prod shape ->
  LinearOperator_applyAdjoint op (vec y) =
  inr (vec (adjoint_conv kernel shape order y)).
Proof.
  intros Hy. destruct (convolve_inr _ _ _ _ Hop) as (Hdim & _ & _ & ->).
  unfold LinearOperator_applyAdjoint. cbn [op_shape op_adjoint fst].
  pose (g := adjoint_conv kernel shape order).
  assert (Hg : forall y', length y' = prod shape ->
            on_column shape order
              (fun img => convSame img (__flip kernel)
                                   (a_slice_of kernel shape)) y'
              = inr (g y') /\
            length (g y') = prod shape)
    by (intros y' Hy'; now apply adjoint_column).
  fold g.
  rewrite (run_on_vec _ _ y (map_columns g (mkArr [prod shape; 1] y)) Hy).
  - rewrite (map_columns_single g _ (prod shape)); [|reflexivity|].
    + rewrite <- Hy at 1. now rewrite column_vec.
    + rewrite <- Hy at 1. rewrite column_vec. now apply Hg.
  - now apply (matvectorized_batch _ _ _ g _ 1).
Qed.

End Operator.


(** ** The adjoint of the "same" convolution *)

Lemma le_idx_cons i ix j jx :
  le_idx (i :: ix) (j :: jx) = (i <=? j) && le_idx ix jx.
Proof. reflexivity. Qed.

(** The kernel entry met by the pair [(i, t)] in the forward direction is
    the one met by [(t, i)] in the adjoint direction, on the flipped
    kernel. *)
Lemma kernel_index_duality (ks sh i t : list nat) :
  length ks = length sh ->
  Forall (fun m => 0 < m) ks ->
  valid sh i -> valid sh t ->
  let jf := sub_idx (zipWith Nat.add (f_starts ks) t) i in
  let ja := sub_idx (zipWith Nat.add (a_starts ks) i) t in
  le_idx i (zipWith Nat.add (f_starts ks) t) && validb ks jf =
  le_idx t (zipWith Nat.add (a_starts ks) i) && validb ks ja /\
  (le_idx t (zipWith Nat.add (a_starts ks) i) && validb ks ja = true ->
   mirror ks ja = jf).
Proof.
  intros Hlen Hpos. revert sh i t Hlen.
  induction Hpos as [|m ms Hm _ IH]; intros [|n ns] [|i ix] [|t tx];
    simpl; try easy.
  intros Hlen [Hi Hvi] [Ht Hvt].
  destruct (IH ns ix tx) as [IHg IHm]; [lia|assumption|assumption|].
  set (fs := Z.to_nat ((Z.of_nat m - 1) / 2)) in *.
  set (az := Z.to_nat (Z.of_nat m / 2)) in *.
  assert (Hsum : fs + az = m - 1)
    by (subst fs az; Z.div_mod_to_equations; lia).
  fold (f_starts ms) (a_starts ms) in *.
  fold (sub_idx (zipWith Nat.add (f_starts ms) tx) ix) in *.
  fold (sub_idx (zipWith Nat.add (a_starts ms) ix) tx) in *.
  rewrite !le_idx_cons.
  set (Lf := le_idx ix _) in *. set (Vf := validb ms (sub_idx _ ix)) in *.
  set (La := le_idx tx _) in *. set (Va := validb ms (sub_idx _ tx)) in *.
  assert (Hhead : (i <=? fs + t) && (fs + t - i <? m) =
                  (t <=? az + i) && (az + i - t <? m)).
  { destruct (Nat.leb_spec i (fs + t)), (Nat.ltb_spec (fs + t - i) m),
      (Nat.leb_spec t (az + i)), (Nat.ltb_spec (az + i - t) m);
      simpl; try reflexivity; lia. }
  split.
  - clear IHm. clearbody Lf Vf La Va.
    set (a := i <=? fs + t) in *. set (b := fs + t - i <? m) in *.
    set (c := t <=? az + i) in *. set (d := az + i - t <? m) in *.
    clearbody a b c d.
    destruct a, b, c, d, Lf, Vf, La, Va; simpl in *; congruence.
  - intros H. rewrite !andb_true_iff in H.
    destruct H as [[Hle HLa] [Hlt HVa]].
    apply Nat.leb_le in Hle. apply Nat.ltb_lt in Hlt.
    change (m - 1 - (az + i - t)
              :: mirror ms (sub_idx (zipWith Nat.add (a_starts ms) ix) tx) =
            fs + t - i :: sub_idx (zipWith Nat.add (f_starts ms) tx) ix).
    f_equal; [lia|]. apply IHm. now rewrite HLa, HVa.
Qed.

Lemma unflat_get order sh x idx :
  valid sh idx ->
  get (unflat order sh x) idx = nth (ravel_by order sh idx) x (Q2Qc 0).
Proof. intros H. unfold unflat. now rewrite get_build. Qed.


Section Adjoint.

Local Open Scope Qc_scope.

Variables (kernel : ndarray) (shape : list nat) (order : string).
Hypothesis Hdim : ndim kernel = length shape.
Hypothesis Hkernel : Forall (fun m => (0 < m)%nat) (a_shape kernel).


End Adjoint.


(** ** Operators as objects in a store *)

(** A run of a function of the operator: it depends on the store through
    the input and the kernel only, and adds its answer to the store. *)
Lemma apply_obj_run (o : operator) (x : addr) (h : store) :
  apply_obj o x h =
  match nth_error h x, nth_error h (o_kernel o) with
  | Some X, Some K =>
      match run_on (snd (o_shape o))
              (matvectorized (o_dims o) (o_order o)
                 (fun img => convSame img K (o_f_slice o))) X with
      | inr Y => inr (length h, h ++ [Y])
      | inl e => inl e
      end
  | Some _, None | None, _ => inl (TypeError "no array at this address")
  end.
Proof.
  unfold apply_obj, st_bind, load, lift, alloc.
  destruct (nth_error h x); [|reflexivity].
  destruct (nth_error h (o_kernel o)); [|reflexivity].
  now destruct (run_on _ _ _).
Qed.

Lemma applyAdjoint_obj_run (o : operator) (y : addr) (h : store) :
  applyAdjoint_obj o y h =
  match nth_error h y, nth_error h (o_kernel o) with
  | Some Y, Some K =>
      match run_on (fst (o_shape o))
              (matvectorized (o_dims o) (o_order o)
                 (fun img => convSame img (__flip K) (o_a_slice o))) Y with
      | inr X => inr (length h, h ++ [X])
      | inl e => inl e
      end
  | Some _, None | None, _ => inl (TypeError "no array at this address")
  end.
Proof.
  unfold applyAdjoint_obj, st_bind, load, lift, alloc.
  destruct (nth_error h y); [|reflexivity].
  destruct (nth_error h (o_kernel o)); [|reflexivity].
  now destruct (run_on _ _ _).
Qed.

Lemma outcome_alloc (h : store) (v : ndarray) :
  outcome (inr (length h, h ++ [v])) = inr (Some v).
Proof.
  unfold outcome. f_equal.
  rewrite nth_error_app2 by lia. now rewrite Nat.sub_diag.
Qed.

(** The operator object returned by [convolve_obj] is the operator of
    [convolve] on the entries of the kernel: construction leaves the store
    as it is, and the forward and adjoint functions compute what
    [LinearOperator_apply] and [LinearOperator_applyAdjoint] do. *)
Lemma convolve_obj_spec kernel shape order h o h' :
  convolve_obj kernel shape order h = inr (o, h') ->
  h' = h /\
  exists K op,
    nth_error h kernel = Some K /\ convolve K shape order = inr op /\
    o_shape o = op_shape op /\
    forall h2 x X,
      nth_error h2 kernel = Some K -> nth_error h2 x = Some X ->
      outcome (apply_obj o x h2) =
        (Y <- LinearOperator_apply op X ;; ret (Some Y)) /\
      outcome (applyAdjoint_obj o x h2) =
        (Y <- LinearOperator_applyAdjoint op X ;; ret (Some Y)).
Proof.
  unfold convolve_obj, st_bind, load, lift, st_ret.
  destruct (nth_error h kernel) as [K|] eqn:EK; [|discriminate].
  destruct (convolve K shape order) as [e|op] eqn:Eop; [discriminate|].
  intros [= <- <-]. split; [reflexivity|].
  exists K, op. split; [reflexivity|]. split; [exact Eop|].
  split; [reflexivity|].
  intros h2 x X HK HX.
  destruct (convolve_inr _ _ _ _ Eop) as (_ & _ & _ & ->).
  rewrite apply_obj_run, applyAdjoint_obj_run.
  cbn [o_shape o_kernel o_dims o_order o_f_slice o_a_slice].
  rewrite HK, HX.
  unfold LinearOperator_apply, LinearOperator_applyAdjoint.
  cbn [op_shape op_forward op_adjoint fst snd].
  split.
  - destruct (run_on _ _ _); [reflexivity|]. now rewrite outcome_alloc.
  - destruct (run_on _ _ _); [reflexivity|]. now rewrite outcome_alloc.
Qed.

(** ** Instances *)

Lemma example_linop_built :
  convolve example_kernel [3; 3] "C" = inr example_linop.
Proof. reflexivity. Qed.

Lemma example_operator_built :
  convolve_obj 0 [3; 3] "C" example_store =
  inr (example_operator, example_store).
Proof. reflexivity. Qed.



Lemma gradient_validation_witness :
  (3 <= 3)%Z /\
  exists e, gradient 3 3 [5; 6] None "C" = inl e /\ ConfigurationError e.
Proof.
  split; [lia|]. apply gradient_validation. left. lia.
Defined.

Lemma gradient_shape_guard_witness :
  In 2 [5; 2] /\ (Z.of_nat 2 < 3)%Z /\
  gradient 1 3 [5; 2] None "C" =
  inl (ValueError "Shape's dims must have at least as many points as central difference weights.").
Proof.
  split; [simpl; tauto|]. split; [lia|].
  apply (gradient_shape_guard 1 3 [5; 2] None "C" 2); [simpl; tauto|lia].
Defined.

Lemma flip_reverses_every_axis_witness :
  wf example_kernel /\
  a_shape (__flip example_kernel) = a_shape example_kernel /\
  (forall idx, valid (a_shape example_kernel) idx ->
     get (__flip example_kernel) idx =
     get example_kernel (mirror (a_shape example_kernel) idx)) /\
  __flip (__flip example_kernel) = example_kernel.
Proof.
  split; [reflexivity|]. apply flip_reverses_every_axis. reflexivity.
Defined.

(** * Further properties of the module *)

(** ** What [convolve] accepts *)

(** X1: [convolve] returns an operator exactly when the kernel has as many
    dimensions as [shape], the order is one of 'C', 'F', 'A' and [shape] is
    not empty; a dimension mismatch is reported before a bad order, and an
    empty shape, with a 0-dimensional kernel, ends in the [TypeError] of
    [reduce], not in a [ValueError]. *)
Theorem convolve_outcome (kernel : ndarray) (shape : list nat)
    (order : string) :
  ((exists op, convolve kernel shape order = inr op) <->
   ndim kernel = length shape /\ In order ["C"; "F"; "A"]%string /\
   shape <> []) /\
  (ndim kernel <> length shape ->
   convolve kernel shape order =
   inl (ValueError "kernel and shape must have the same dimensions.")) /\
  (ndim kernel = 0 -> In order ["C"; "F"; "A"]%string ->
   convolve kernel [] order =
   inl (TypeError "reduce() of empty sequence with no initial value")).
Proof.
  split; [|split].
  - split.
    + intros [op Hop].
      destruct (convolve_inr _ _ _ _ Hop) as (Hdim & Hord & Hne & _).
      apply valid_order_In in Hord. tauto.
    + intros (Hdim & Hord & Hne). apply valid_order_In in Hord.
      now apply convolve_succeeds.
  - intros Hdim. unfold convolve.
    destruct (Nat.eqb_spec (ndim kernel) (length shape)); [contradiction|].
    reflexivity.
  - intros Hdim Hord. apply valid_order_In in Hord. unfold convolve.
    rewrite Hdim, Hord. reflexivity.
Qed.

(** ** The buffer of a flipped array *)

Lemma valid_prod_pos sh idx : valid sh idx -> 0 < prod sh.
Proof.
  revert idx. induction sh as [|n ns IH]; intros [|i ix]; simpl; try easy.
  - lia.
  - intros [Hi H]. specialize (IH ix H). nia.
Qed.

Lemma ravel_lt sh idx : valid sh idx -> ravel sh idx < prod sh.
Proof. intros H. now apply (nth_ravel_indices sh idx idx). Qed.

(** Mirroring a multi-index on every axis mirrors its flat position. *)
Lemma ravel_mirror sh idx :
  valid sh idx -> ravel sh (mirror sh idx) = prod sh - 1 - ravel sh idx.
Proof.
  unfold mirror.
  revert idx. induction sh as [|n ns IH]; intros [|i ix]; simpl; try easy.
  intros [Hi H]. rewrite (IH ix H).
  pose proof (ravel_lt ns ix H). nia.
Qed.

Lemma rev_by_positions {A} (l : list A) (d : A) :
  map (fun p => nth (length l - 1 - p) l d) (seq 0 (length l)) = rev l.
Proof.
  apply (nth_ext _ _ d d).
  - now rewrite length_map, length_seq, length_rev.
  - intros p Hp. rewrite length_map, length_seq in Hp.
    rewrite (nth_indep _ d (nth (length l - 1 - 0) l d))
      by (now rewrite length_map, length_seq).
    rewrite (map_nth (fun p => nth (length l - 1 - p) l d)).
    rewrite seq_nth by exact Hp. rewrite rev_nth by exact Hp.
    f_equal. lia.
Qed.

Lemma flip_as_reversal (a : ndarray) :
  wf a -> __flip a = mkArr (a_shape a) (rev (a_data a)).
Proof.
  intros Hwf.
  rewrite <- (build_get (__flip a) (flip_wf a Hwf)), flip_shape.
  unfold build. f_equal.
  rewrite <- (rev_by_positions (a_data a) (Q2Qc 0)), Hwf.
  rewrite <- (ravel_indices (a_shape a)), map_map.
  apply map_ext_in. intros idx Hidx. apply in_indices in Hidx.
  rewrite flip_get by exact Hidx. unfold get.
  now rewrite ravel_mirror.
Qed.

(** X2: flipping every axis of an array reverses its C-order buffer and
    keeps its shape. *)
Theorem flip_reverses_buffer (a : ndarray) :
  wf a -> __flip a = mkArr (a_shape a) (rev (a_data a)).
Proof. exact (flip_as_reversal a). Qed.

Lemma flip_reverses_buffer_witness :
  wf example_kernel /\
  __flip example_kernel =
  mkArr (a_shape example_kernel) (rev (a_data example_kernel)).
Proof.
  split; [reflexivity|]. apply flip_reverses_buffer. reflexivity.
Defined.

(** ** The matrix of the operator and of its adjoint *)

Lemma nth_ravel_indices_by {A} order sh idx (g : list nat -> A) (d : A) :
  valid sh idx ->
  nth (ravel_by order sh idx) (map g (indices_by order sh)) d = g idx.
Proof.
  intros H. apply (in_indices_by order) in H.
  destruct (In_nth _ _ idx H) as (p & Hp & Hnth).
  assert (ravel_by order sh idx = p) as ->.
  { rewrite <- Hnth.
    rewrite <- (map_nth (ravel_by order sh) (indices_by order sh) idx p).
    rewrite ravel_indices_by.
    rewrite indices_by_length in Hp.
    rewrite (nth_indep _ _ 0) by (now rewrite length_seq).
    now rewrite seq_nth. }
  rewrite (nth_indep _ d (g idx)) by (now rewrite length_map).
  now rewrite map_nth, Hnth.
Qed.


Section Matrix.

Local Open Scope Qc_scope.

Variables (kernel : ndarray) (shape : list nat) (order : string).
Hypothesis Hdim : ndim kernel = length shape.
Hypothesis Hkernel : Forall (fun m => (0 < m)%nat) (a_shape kernel).

(** Entry [t] of a column through the forward function. *)
Lemma forward_conv_entry x t :
  valid shape t ->
  nth (ravel_by order shape t) (forward_conv kernel shape order x) (Q2Qc 0) =
  sum_over (indices shape) (fun i =>
    coefficient kernel t i * nth (ravel_by order shape i) x (Q2Qc 0)).
Proof.
  intros Ht. unfold forward_conv, same_conv.
  rewrite nth_ravel_indices_by by exact Ht.
  unfold full_entry. rewrite unflat_shape.
  apply sum_over_ext. intros i Hi. apply in_indices in Hi.
  unfold coefficient. cbv zeta.
  destruct (le_idx i _ && validb _ _); [|ring].
  rewrite unflat_get by exact Hi. ring.
Qed.

(** Entry [t] of a column through the adjoint function: the coefficients
    are those of the forward function, transposed. *)
Lemma adjoint_conv_entry y t :
  valid shape t ->
  nth (ravel_by order shape t) (adjoint_conv kernel shape order y) (Q2Qc 0) =
  sum_over (indices shape) (fun i =>
    coefficient kernel i t * nth (ravel_by order shape i) y (Q2Qc 0)).
Proof.
  intros Ht. unfold adjoint_conv, same_conv.
  rewrite nth_ravel_indices_by by exact Ht.
  unfold full_entry. rewrite unflat_shape, flip_shape.
  apply sum_over_ext. intros i Hi. apply in_indices in Hi.
  unfold coefficient. cbv zeta.
  destruct (kernel_index_duality (a_shape kernel) shape t i)
    as [Hguard Hmirror]; try assumption.
  rewrite Hguard.
  destruct (le_idx i _ && validb _ _) eqn:G; [|ring].
  rewrite flip_get
    by (apply validb_valid; now apply andb_true_iff in G).
  rewrite (Hmirror eq_refl).
  rewrite unflat_get by exact Hi. ring.
Qed.

End Matrix.

(** X3: the operator returned by [convolve] is the matrix whose entry at
    row [t] and column [i] is the kernel entry at [t + (m - 1) // 2 - i]
    (0 outside the kernel), and its adjoint is the transposed matrix: rows
    and columns are numbered by the position of the multi-indices in the
    flat vectors. *)
Theorem convolve_matrix (kernel : ndarray) (shape : list nat)
    (order : string) (op : LinearOperator) :
  convolve kernel shape order = inr op ->
  Forall (fun m => 0 < m) (a_shape kernel) ->
  Forall (fun n => 0 < n) shape ->
  forall x : list Qc, length x = prod shape ->
    exists u v,
      LinearOperator_apply op (vec x) = inr (vec u) /\
      LinearOperator_applyAdjoint op (vec x) = inr (vec v) /\
      forall t, valid shape t ->
        nth (ravel_by order shape t) u (Q2Qc 0) =
          sum_over (indices shape) (fun i =>
            (coefficient kernel t i *
             nth (ravel_by order shape i) x (Q2Qc 0))%Qc) /\
        nth (ravel_by order shape t) v (Q2Qc 0) =
          sum_over (indices shape) (fun i =>
            (coefficient kernel i t *
             nth (ravel_by order shape i) x (Q2Qc 0))%Qc).
Proof.
  intros Hop Hk Hsh x Hx.
  pose proof (convolve_inr _ _ _ _ Hop) as (Hdim & _ & _ & _).
  eexists. eexists.
  split; [exact (apply_vec _ _ _ _ Hop Hk Hsh x Hx)|].
  split; [exact (applyAdjoint_vec _ _ _ _ Hop Hk Hsh x Hx)|].
  intros t Ht. split.
  - now apply forward_conv_entry.
  - now apply adjoint_conv_entry.
Qed.

Lemma convolve_matrix_witness :
  exists u v,
    LinearOperator_apply example_linop (vec example_image) = inr (vec u) /\
    LinearOperator_applyAdjoint example_linop (vec example_image)
      = inr (vec v) /\
    forall t, valid [3; 3] t ->
      nth (ravel_by "C" [3; 3] t) u (Q2Qc 0) =
        sum_over (indices [3; 3]) (fun i =>
          (coefficient example_kernel t i *
           nth (ravel_by "C" [3; 3] i) example_image (Q2Qc 0))%Qc) /\
      nth (ravel_by "C" [3; 3] t) v (Q2Qc 0) =
        sum_over (indices [3; 3]) (fun i =>
          (coefficient example_kernel i t *
           nth (ravel_by "C" [3; 3] i) example_image (Q2Qc 0))%Qc).
Proof.
  apply (convolve_matrix example_kernel [3; 3] "C" example_linop).
  - reflexivity.
  - repeat (constructor; [lia|]). constructor.
  - repeat (constructor; [lia|]). constructor.
  - reflexivity.
Defined.

(** ** Linearity *)




Section Linear.

Local Open Scope Qc_scope.


End Linear.



(** ** Kernels with an odd number of entries on every axis *)

Lemma flip_flip (a : ndarray) : wf a -> __flip (__flip a) = a.
Proof.
  intros Hwf. rewrite (flip_as_reversal a Hwf).
  rewrite flip_as_reversal by (unfold wf; simpl; now rewrite length_rev).
  simpl. rewrite rev_involutive. now destruct a.
Qed.

Lemma odd_centre (m : nat) :
  Nat.odd m = true -> (Z.of_nat m / 2 = (Z.of_nat m - 1) / 2)%Z.
Proof.
  intros H. apply Nat.odd_spec in H. destruct H as [k ->].
  Z.div_mod_to_equations. lia.
Qed.

(** For such a kernel the slices of the forward and of the adjoint function
    are the same. *)
Lemma odd_kernel_slices kernel shape :
  Forall (fun m => Nat.odd m = true) (a_shape kernel) ->
  a_slice_of kernel shape = f_slice_of kernel shape.
Proof.
  intros Hodd. unfold a_slice_of, f_slice_of. rewrite flip_shape.
  apply map_ext_in. intros d Hd. apply in_seq in Hd.
  assert (Hm : Nat.odd (nth d (a_shape kernel) 0) = true).
  { rewrite Forall_forall in Hodd. apply Hodd, nth_In.
    unfold ndim in Hd. lia. }
  now rewrite (odd_centre _ Hm).
Qed.

Lemma f_slice_of_shape k1 k2 shape :
  a_shape k1 = a_shape k2 -> f_slice_of k1 shape = f_slice_of k2 shape.
Proof. intros H. unfold f_slice_of, ndim. now rewrite H. Qed.

(** X5: for a kernel with an odd number of entries on every axis, the
    adjoint of the operator of the kernel is the forward function of the
    operator of the flipped kernel, and the other way round; when the
    kernel is its own flip, the operator is self-adjoint. *)
Theorem odd_kernel_adjoint (kernel : ndarray) (shape : list nat)
    (order : string) (op : LinearOperator) :
  wf kernel ->
  Forall (fun m => Nat.odd m = true) (a_shape kernel) ->
  convolve kernel shape order = inr op ->
  exists op',
    convolve (__flip kernel) shape order = inr op' /\
    op_adjoint op = op_forward op' /\
    op_forward op = op_adjoint op' /\
    (__flip kernel = kernel -> op_adjoint op = op_forward op).
Proof.
  intros Hwf Hodd Hop.
  destruct (convolve_inr _ _ _ _ Hop) as (Hdim & Hord & Hne & ->).
  destruct (convolve_succeeds (__flip kernel) shape order) as [op' Hop'];
    try assumption.
  { unfold ndim. now rewrite flip_shape. }
  exists op'. split; [exact Hop'|].
  destruct (convolve_inr _ _ _ _ Hop') as (_ & _ & _ & ->).
  cbn [op_adjoint op_forward].
  assert (Hodd' : Forall (fun m => Nat.odd m = true) (a_shape (__flip kernel)))
    by now rewrite flip_shape.
  rewrite (odd_kernel_slices (__flip kernel) shape Hodd').
  rewrite (odd_kernel_slices kernel shape Hodd).
  rewrite (flip_flip kernel Hwf).
  rewrite (f_slice_of_shape (__flip kernel) kernel shape (flip_shape kernel)).
  split; [reflexivity|]. split; [reflexivity|].
  intros Hsym. now rewrite Hsym.
Qed.

Lemma odd_kernel_adjoint_witness :
  exists op',
    convolve (__flip example_stencil) [4] "C" = inr op' /\
    op_adjoint stencil_linop = op_forward op' /\
    op_forward stencil_linop = op_adjoint op' /\
    op_adjoint stencil_linop = op_forward stencil_linop.
Proof.
  destruct (odd_kernel_adjoint example_stencil [4] "C" stencil_linop)
    as (op' & H1 & H2 & H3 & H4).
  - reflexivity.
  - repeat constructor.
  - reflexivity.
  - exists op'. split; [exact H1|]. split; [exact H2|]. split; [exact H3|].
    apply H4. rewrite flip_as_reversal by reflexivity. reflexivity.
Defined.

(** ** Kernels with one entry *)

Section Single.

Local Open Scope Qc_scope.

(** A sum with one term that is not zero. *)
Lemma sum_over_single {A} (l : list A) (t : A) (g : A -> Qc) :
  NoDup l -> In t l ->
  (forall i, In i l -> i <> t -> g i = 0) ->
  sum_over l g = g t.
Proof.
  induction 1 as [|a l Hnotin Hnd IH]; [easy|].
  intros [->|Hin] Hzero; rewrite sum_over_cons.
  - rewrite (sum_over_ext l g (fun _ => 0)), sum_over_zero; [ring|].
    intros i Hi. apply Hzero; [now right|]. intros ->. contradiction.
  - rewrite IH; try assumption.
    + rewrite (Hzero a); [ring|now left|]. intros ->. contradiction.
    + intros i Hi. apply Hzero. now right.
Qed.

End Single.

Lemma unit_starts n :
  f_starts (repeat 1 n) = repeat 0 n /\ a_starts (repeat 1 n) = repeat 0 n.
Proof.
  unfold f_starts, a_starts. induction n as [|n [IHf IHa]]; [easy|].
  simpl. now rewrite IHf, IHa.
Qed.

Lemma unit_prod n : prod (repeat 1 n) = 1.
Proof. induction n as [|n IH]; simpl; lia. Qed.

Lemma unit_get n c idx :
  valid (repeat 1 n) idx -> get (unit_kernel n c) idx = c.
Proof.
  intros H. unfold get, unit_kernel. simpl.
  pose proof (ravel_lt _ _ H) as Hlt. rewrite unit_prod in Hlt.
  now replace (ravel (repeat 1 n) idx) with 0 by lia.
Qed.

(** With one kernel entry, output [t] meets input [i] only for [i = t]. *)
Lemma unit_guard n (i t : list nat) :
  length i = n -> length t = n ->
  le_idx i (zipWith Nat.add (repeat 0 n) t)
  && validb (repeat 1 n) (sub_idx (zipWith Nat.add (repeat 0 n) t) i) = true
  <-> i = t.
Proof.
  revert i t. induction n as [|n IH]; intros [|a i] [|b t]; simpl; try easy.
  intros Hi Ht. rewrite le_idx_cons.
  specialize (IH i t ltac:(lia) ltac:(lia)).
  unfold sub_idx in *.
  rewrite !andb_true_iff in *. rewrite Nat.leb_le, Nat.ltb_lt.
  split.
  - intros [[Hle HL] [Hlt HV]]. f_equal; [lia|]. apply IH. tauto.
  - intros [= -> ->]. destruct IH as [_ IH]. specialize (IH eq_refl).
    repeat split; try tauto; lia.
Qed.

Section Unit.

Local Open Scope Qc_scope.

Variables (shape : list nat) (order : string) (c : Qc).

Lemma unit_same_conv x :
  length x = prod shape ->
  same_conv (unit_kernel (length shape) c) (repeat 0%nat (length shape))
            shape order x =
  map (Qcmult c) x.
Proof.
  intros Hx. unfold same_conv.
  etransitivity;
    [|apply (f_equal (map (Qcmult c))
               (vector_by_positions order shape x Hx))].
  rewrite map_map. apply map_ext_in. intros t Ht.
  apply in_indices_by in Ht.
  unfold full_entry. rewrite unflat_shape.
  rewrite (sum_over_single _ t).
  - pose proof (proj2 (unit_guard (length shape) t t
                         (valid_length _ _ Ht) (valid_length _ _ Ht))
                      eq_refl) as H.
    cbn [unit_kernel a_shape].
    rewrite H.
    rewrite unit_get
      by (apply validb_valid; now apply andb_true_iff in H).
    rewrite unflat_get by exact Ht. ring.
  - apply indices_NoDup.
  - now apply in_indices.
  - intros i Hi Hne. apply in_indices in Hi.
    cbn [unit_kernel a_shape].
    destruct (le_idx i _ && validb _ _) eqn:G; [|reflexivity].
    apply unit_guard in G; try now apply valid_length. contradiction.
Qed.

End Unit.

(** X6: a kernel with a single entry [c] gives the operator that multiplies
    by [c]: its forward and its adjoint function both send [x] to
    [c * x]. *)
Theorem unit_kernel_scales (shape : list nat) (order : string) (c : Qc)
    (op : LinearOperator) :
  convolve (unit_kernel (length shape) c) shape order = inr op ->
  Forall (fun n => 0 < n) shape ->
  forall x : list Qc, length x = prod shape ->
    LinearOperator_apply op (vec x) = inr (vec (map (Qcmult c) x)) /\
    LinearOperator_applyAdjoint op (vec x) = inr (vec (map (Qcmult c) x)).
Proof.
  intros Hop Hsh x Hx.
  assert (Hk : Forall (fun m => 0 < m) (a_shape (unit_kernel (length shape) c))).
  { cbn [unit_kernel a_shape]. apply Forall_forall. intros m Hm.
    apply repeat_spec in Hm. lia. }
  assert (Hwf : wf (unit_kernel (length shape) c))
    by (unfold wf; simpl; now rewrite unit_prod).
  destruct (unit_starts (length shape)) as [Hf Ha].
  split.
  - rewrite (apply_vec _ _ _ _ Hop Hk Hsh x Hx). do 2 f_equal.
    unfold forward_conv. cbn [unit_kernel a_shape]. rewrite Hf.
    now apply unit_same_conv.
  - rewrite (applyAdjoint_vec _ _ _ _ Hop Hk Hsh x Hx). do 2 f_equal.
    unfold adjoint_conv. rewrite (flip_as_reversal _ Hwf).
    cbn [unit_kernel a_shape a_data rev app]. rewrite Ha.
    now apply unit_same_conv.
Qed.

Lemma unit_kernel_scales_witness :
  LinearOperator_apply unit_linop (vec example_image) =
    inr (vec (map (Qcmult (num 5)) example_image)) /\
  LinearOperator_applyAdjoint unit_linop (vec example_image) =
    inr (vec (map (Qcmult (num 5)) example_image)).
Proof.
  apply (unit_kernel_scales [3; 3] "C" (num 5) unit_linop).
  - reflexivity.
  - repeat (constructor; [lia|]). constructor.
  - reflexivity.
Defined.

(** ** What [gradient] accepts *)

(** What [central_diff_weights] has checked when it returns. *)
Lemma central_diff_weights_inr (Np ndiv : Z) (w : list Qc) :
  central_diff_weights Np ndiv = inr w ->
  (0 < Np /\ ndiv < Np /\ Np mod 2 = 1)%Z.
Proof.
  unfold central_diff_weights.
  destruct (Z.ltb_spec Np (ndiv + 1)); [discriminate|].
  destruct (Z.eqb_spec (Np mod 2) 0); [discriminate|].
  unfold linalg_inv. rewrite !length_map, length_seq. cbn [length].
  rewrite length_seq.
  destruct (Nat.eqb_spec (Z.to_nat (2 * Z.shiftr Np 1 + 1))
                         (S (Z.to_nat Np - 1))) as [E|]; [|discriminate].
  intros _. rewrite Z.shiftr_div_pow2 in E by lia.
  change (2 ^ 1)%Z with 2%Z in E.
  assert (Np mod 2 = 1)%Z by (pose proof (Z.mod_pos_bound Np 2); lia).
  repeat split; try lia.
  pose proof (Z.div_mod Np 2). lia.
Qed.

(** X7: [gradient] refuses an even number of points with a configuration
    error, whatever the other arguments are. *)
Theorem gradient_even_points (derivative points : Z) (shape : list nat)
    (step : option (list Qc)) (order : string) :
  (points mod 2 = 0)%Z ->
  exists e, gradient derivative points shape step order = inl e /\
            ConfigurationError e.
Proof.
  intros Heven. unfold gradient, gradient_kernel.
  destruct (existsb _ shape); [raises_configuration_error|].
  assert (Hw : exists msg, central_diff_weights points derivative
                           = inl (ValueError msg)).
  { unfold central_diff_weights.
    destruct (points <? derivative + 1)%Z; [eexists; reflexivity|].
    rewrite Heven. eexists. reflexivity. }
  destruct Hw as [msg Hw].
  destruct step as [st|]; [destruct (length st =? length shape)|];
    cbn [negb bind ret raise]; rewrite ?Hw;
    raises_configuration_error.
Qed.

Lemma gradient_even_points_witness :
  (4 mod 2 = 0)%Z /\
  exists e, gradient 1 4 [5; 6] None "C" = inl e /\ ConfigurationError e.
Proof.
  split; [reflexivity|]. apply gradient_even_points. reflexivity.
Defined.

(** X8: when [gradient] returns an operator, the number of points is
    positive, odd and larger than the derivative order, no dimension of
    [shape] is smaller than it, [shape] is not empty, a step that was given
    has one entry per dimension, and the operator has shape
    [(prod(shape), prod(shape))]. *)
Theorem gradient_returns (derivative points : Z) (shape : list nat)
    (step : option (list Qc)) (order : string) (op : LinearOperator) :
  gradient derivative points shape step order = inr op ->
  (0 < points)%Z /\ (points mod 2 = 1)%Z /\ (derivative < points)%Z /\
  Forall (fun s => (points <= Z.of_nat s)%Z) shape /\
  shape <> [] /\
  (forall st, step = Some st -> length st = length shape) /\
  In order ["C"; "F"; "A"]%string /\
  op_shape op = (prod shape, prod shape).
Proof.
  unfold gradient.
  destruct (gradient_kernel derivative points shape step) as [e|K] eqn:HK;
    [discriminate|].
  cbn [bind]. intros Hop.
  destruct (convolve_inr _ _ _ _ Hop) as (_ & Hord & Hne & ->).
  apply valid_order_In in Hord.
  unfold gradient_kernel in HK.
  destruct (existsb _ shape) eqn:Hsmall; [discriminate|].
  assert (Hlen : forall st, step = Some st -> length st = length shape).
  { intros st ->. destruct (Nat.eqb_spec (length st) (length shape));
      [assumption|discriminate]. }
  assert (Hw : exists w, central_diff_weights points derivative = inr w).
  { destruct step as [st|]; [destruct (length st =? length shape)|];
      cbn [negb bind ret raise] in HK; try discriminate;
      destruct (central_diff_weights points derivative) as [e|w];
      try discriminate; now exists w. }
  destruct Hw as [w Hw].
  destruct (central_diff_weights_inr _ _ _ Hw) as (Hpos & Hlt & Hodd).
  repeat split; try assumption.
  apply Forall_forall. intros s Hs.
  destruct (Z.ltb_spec (Z.of_nat s) points) as [Hlt'|]; [|assumption].
  assert (existsb (fun s => (Z.of_nat s <? points)%Z) shape = true).
  { apply existsb_exists. exists s. split; [exact Hs|]. now apply Z.ltb_lt. }
  congruence.
Qed.

Lemma gradient_returns_witness :
  exists op,
    gradient 1 3 [5; 6] None "C" = inr op /\
    (0 < 3)%Z /\ (3 mod 2 = 1)%Z /\ (1 < 3)%Z /\
    Forall (fun s => (3 <= Z.of_nat s)%Z) [5; 6] /\
    [5; 6] <> [] /\
    (forall st, @None (list Qc) = Some st -> length st = length [5; 6]) /\
    In "C"%string ["C"; "F"; "A"]%string /\
    op_shape op = (prod [5; 6], prod [5; 6]).
Proof.
  destruct (gradient 1 3 [5; 6] None "C") as [e|op] eqn:E.
  - exfalso. vm_compute in E. discriminate.
  - exists op. split; [reflexivity|].
    exact (gradient_returns 1 3 [5; 6] None "C" op E).
Defined.

(** ** The kernel built by [gradient] *)

Lemma skipn_repeat {A} (x : A) k m : skipn k (repeat x m) = repeat x (m - k).
Proof.
  revert k. induction m as [|m IH]; intros [|k]; simpl; try reflexivity.
  apply IH.
Qed.

Lemma firstn_repeat {A} (x : A) k m :
  k <= m -> firstn k (repeat x m) = repeat x k.
Proof.
  revert k. induction m as [|m IH]; intros [|k] H; simpl; try reflexivity.
  - lia.
  - f_equal. apply IH. lia.
Qed.

(** [slc[-dim:] + slc[:-dim]] moves the [slice(None)] of [slc] to position
    [dim]. *)
Lemma rotated_slc (c n dim : nat) :
  dim < n ->
  let slc := every :: repeat (at_ c) (n - 1) in
  last_items slc dim ++ but_last_items slc dim =
  repeat (at_ c) dim ++ every :: repeat (at_ c) (n - 1 - dim).
Proof.
  intros Hdim slc. subst slc. destruct dim as [|dim].
  - simpl. rewrite app_nil_r. now rewrite Nat.sub_0_r.
  - unfold last_items, but_last_items.
    cbn [length]. rewrite repeat_length.
    replace (S (n - 1) - S dim) with (S (n - 1 - S dim)) by lia.
    cbn [skipn firstn]. rewrite skipn_repeat, firstn_repeat by lia.
    do 2 f_equal. lia.
Qed.

Lemma selects_centres c k ix :
  length ix = k ->
  selects (repeat (at_ c) k) ix = forallb (fun j => j =? c) ix.
Proof.
  revert ix. induction k as [|k IH]; intros [|i ix]; simpl; try easy.
  intros H. f_equal. apply IH. lia.
Qed.

(** What an index tuple with its [slice(None)] at position [dim] selects,
    and where along the slice. *)
Lemma selects_rotated c dim k idx :
  length idx = dim + 1 + k ->
  let items := repeat (at_ c) dim ++ every :: repeat (at_ c) k in
  selects items idx = on_axis dim c idx /\
  slice_pos items idx = nth dim idx 0.
Proof.
  revert idx. induction dim as [|dim IH]; intros [|i ix]; simpl; try lia.
  - intros H. split; [|reflexivity]. apply selects_centres. lia.
  - intros H. destruct (IH ix) as [IHs IHp]; [lia|].
    simpl in IHs, IHp. now rewrite IHs, IHp.
Qed.

Section Stencil.

Local Open Scope Qc_scope.

Lemma nth_map_div (s : Qc) (l : list Qc) (p : nat) :
  nth p (map (fun w => w / s) l) 0 = nth p l 0 / s.
Proof.
  rewrite <- (map_nth (fun w => w / s) l 0 p).
  f_equal. unfold Qcdiv. ring.
Qed.

Lemma iadd_get K items vals idx :
  valid (a_shape K) idx ->
  get (iadd K items vals) idx =
  if selects items idx
  then get K idx + nth (slice_pos items idx) vals 0
  else get K idx.
Proof. intros H. unfold iadd. now rewrite get_build. Qed.

(** The loop of [gradient] adds, round after round, the weights over the
    step along the line selected by the index tuple of the round. *)
Lemma fill_kernel_entries (d : Z) weights slc l K0 K :
  (0 <= d)%Z ->
  fill_kernel d weights slc l K0 = inr K ->
  a_shape K = a_shape K0 /\
  forall idx, valid (a_shape K0) idx ->
    get K idx =
    get K0 idx +
    sum_over l (fun ds =>
      let items := last_items slc (fst ds) ++ but_last_items slc (fst ds) in
      if selects items idx
      then nth (slice_pos items idx) weights 0 / snd ds ^ Z.to_nat d
      else 0).
Proof.
  intros Hd. revert K0. induction l as [|[dim s0] l IH]; intros K0; simpl.
  - intros [= ->]. split; [reflexivity|]. intros idx _.
    rewrite sum_over_nil. ring.
  - unfold float_pow. destruct (Z.ltb_spec d 0) as [Hneg|_]; [lia|].
    cbn [bind ret].
    intros Hrun. destruct (IH _ Hrun) as [Hs Hg]. split; [exact Hs|].
    intros idx Hidx. rewrite Hg by exact Hidx.
    rewrite iadd_get by exact Hidx. rewrite sum_over_cons. cbn [fst snd].
    destruct (selects _ idx); [|ring].
    rewrite nth_map_div. ring.
Qed.

End Stencil.

Lemma zeros_get sh idx : valid sh idx -> get (zeros sh) idx = Q2Qc 0.
Proof. intros H. unfold zeros. now rewrite get_build. Qed.

Lemma enumerate_dim {A} (l : list A) dim a :
  In (dim, a) (enumerate l) -> dim < length l.
Proof.
  unfold enumerate. intros H. apply in_combine_l in H.
  apply in_seq in H. lia.
Qed.

Lemma gradient_kernel_closed (derivative points : Z) (shape : list nat)
    (step : option (list Qc)) (K : ndarray) :
  (0 <= derivative)%Z ->
  gradient_kernel derivative points shape step = inr K ->
  exists w,
    central_diff_weights points derivative = inr w /\
    a_shape K = repeat (Z.to_nat points) (length shape) /\
    forall idx, valid (a_shape K) idx ->
      get K idx =
      sum_over (enumerate (steps_of step shape)) (fun ds =>
        if on_axis (fst ds) (Z.to_nat (points / 2)) idx
        then (nth (nth (fst ds) idx 0%nat) (rev w) (Q2Qc 0)
              / Qcpower (snd ds) (Z.to_nat derivative))%Qc
        else Q2Qc 0).
Proof.
  intros Hd. unfold gradient_kernel.
  destruct (existsb _ shape); [discriminate|].
  assert (Hst : forall r,
    (st <- match step with
           | None => ret (repeat (Q2Qc 1) (length shape))
           | Some st =>
               if negb (length st =? length shape)
               then raise (ValueError
                      "Shape and step must have same ndims (length).")
               else ret st
           end ;; r st) = inr K ->
    length (steps_of step shape) = length shape /\
    r (steps_of step shape) = inr K).
  { intros r. destruct step as [st|]; simpl.
    - destruct (Nat.eqb_spec (length st) (length shape)); simpl;
        [tauto|discriminate].
    - intros H. split; [apply repeat_length|exact H]. }
  intros H. apply Hst in H. destruct H as [Hlen H].
  destruct (central_diff_weights points derivative) as [e|w];
    [discriminate|].
  cbn [bind] in H. exists w. split; [reflexivity|].
  apply (fill_kernel_entries _ _ _ _ _ _ Hd) in H.
  destruct H as [Hs Hg]. rewrite Hs. cbn [zeros build a_shape].
  split; [reflexivity|].
  intros idx Hidx. rewrite Hg by exact Hidx.
  rewrite zeros_get by exact Hidx.
  rewrite Qcplus_0_l.
  apply sum_over_ext. intros [dim s0] Hin. cbn [fst snd].
  apply enumerate_dim in Hin. rewrite Hlen in Hin.
  replace (ndim (zeros (repeat (Z.to_nat points) (length shape))))
    with (length shape)
    by (unfold ndim, zeros; cbn [build a_shape]; now rewrite repeat_length).
  rewrite (rotated_slc _ (length shape) dim Hin).
  pose proof (valid_length _ _ Hidx) as Hl. rewrite repeat_length in Hl.
  destruct (selects_rotated (Z.to_nat (points / 2)) dim
              (length shape - 1 - dim) idx) as [Hsel Hpos]; [lia|].
  cbv zeta in Hsel, Hpos. now rewrite Hsel, Hpos.
Qed.

(** X9: the kernel built by [gradient], for a derivative order that is not
    negative and steps whose power [step[dim] ** derivative] is not 0.0,
    has [points] entries on every axis; its entry at [idx] is the sum, over
    the dimensions [dim] on whose centre line [idx] lies, of the reversed
    weight at position [idx[dim]] divided by [step[dim] ** derivative], and
    0 when [idx] lies on no centre line. *)
Theorem gradient_kernel_entries (derivative points : Z) (shape : list nat)
    (step : option (list Qc)) (K : ndarray) :
  (0 <= derivative)%Z ->
  nonzero_step_powers derivative (steps_of step shape) ->
  gradient_kernel derivative points shape step = inr K ->
  exists w,
    central_diff_weights points derivative = inr w /\
    a_shape K = repeat (Z.to_nat points) (length shape) /\
    forall idx, valid (a_shape K) idx ->
      get K idx =
      sum_over (enumerate (steps_of step shape)) (fun ds =>
        if on_axis (fst ds) (Z.to_nat (points / 2)) idx
        then (nth (nth (fst ds) idx 0%nat) (rev w) (Q2Qc 0)
              / Qcpower (snd ds) (Z.to_nat derivative))%Qc
        else Q2Qc 0).
Proof.
  intros Hd _. exact (gradient_kernel_closed derivative points shape step K Hd).
Qed.

Lemma gradient_kernel_entries_witness :
  nonzero_step_powers 1 (steps_of None [5; 6]) /\
  exists K w,
    gradient_kernel 1 3 [5; 6] None = inr K /\
    central_diff_weights 3 1 = inr w /\
    a_shape K = repeat (Z.to_nat 3) (length [5; 6]) /\
    forall idx, valid (a_shape K) idx ->
      get K idx =
      sum_over (enumerate (steps_of None [5; 6])) (fun ds =>
        if on_axis (fst ds) (Z.to_nat (3 / 2)) idx
        then (nth (nth (fst ds) idx 0%nat) (rev w) (Q2Qc 0)
              / Qcpower (snd ds) (Z.to_nat 1))%Qc
        else Q2Qc 0).
Proof.
  assert (Hstep : nonzero_step_powers 1 (steps_of None [5; 6])).
  { repeat constructor; intros H; apply (proj2 (Qc_eqb_eq _ _)) in H;
      vm_compute in H; discriminate. }
  split; [exact Hstep|].
  destruct (gradient_kernel 1 3 [5; 6] None) as [e|K] eqn:E.
  - exfalso. vm_compute in E. discriminate.
  - destruct (gradient_kernel_entries 1 3 [5; 6] None K) as (w & Hw & H);
      [lia|exact Hstep|exact E|].
    exists K, w. split; [reflexivity|]. split; [exact Hw|exact H].
Defined.

(** ** The kernel is shared, not copied *)

Lemma a_slice_of_shape k1 k2 shape :
  a_shape k1 = a_shape k2 -> a_slice_of k1 shape = a_slice_of k2 shape.
Proof.
  intros H. unfold a_slice_of, ndim. now rewrite !flip_shape, H.
Qed.

(** X10: the operator keeps a reference to the kernel of its caller: when
    the entries of that array have been overwritten after [convolve]
    returned, the forward and the adjoint function compute what the operator
    of the new entries computes. *)
Theorem operator_follows_kernel (kernel : addr) (shape : list nat)
    (order : string) (h h1 : store) (o : operator) (K : ndarray) :
  convolve_obj kernel shape order h = inr (o, h1) ->
  nth_error h kernel = Some K ->
  forall (h2 : store) (K' : ndarray) (x : addr) (X : ndarray),
    nth_error h2 kernel = Some K' -> a_shape K' = a_shape K ->
    nth_error h2 x = Some X ->
    exists op',
      convolve K' shape order = inr op' /\
      outcome (apply_obj o x h2) =
        (Y <- LinearOperator_apply op' X ;; ret (Some Y)) /\
      outcome (applyAdjoint_obj o x h2) =
        (Y <- LinearOperator_applyAdjoint op' X ;; ret (Some Y)).
Proof.
  unfold convolve_obj, st_bind, load, lift, st_ret.
  intros Hobj HK. rewrite HK in Hobj.
  destruct (convolve K shape order) as [e|op] eqn:Eop; [discriminate|].
  injection Hobj as <- <-.
  intros h2 K' x X HK' Hshape HX.
  destruct (convolve_inr _ _ _ _ Eop) as (Hdim & Hord & Hne & ->).
  destruct (convolve_succeeds K' shape order) as [op' Hop'];
    try assumption.
  { unfold ndim in *. now rewrite Hshape. }
  exists op'. split; [exact Hop'|].
  destruct (convolve_inr _ _ _ _ Hop') as (_ & _ & _ & ->).
  rewrite apply_obj_run, applyAdjoint_obj_run.
  cbn [o_shape o_kernel o_dims o_order o_f_slice o_a_slice op_shape].
  rewrite HK', HX.
  unfold LinearOperator_apply, LinearOperator_applyAdjoint.
  cbn [op_shape op_forward op_adjoint fst snd].
  rewrite (f_slice_of_shape K' K shape Hshape).
  rewrite (a_slice_of_shape K' K shape Hshape).
  split.
  - destruct (run_on _ _ _); [reflexivity|]. now rewrite outcome_alloc.
  - destruct (run_on _ _ _); [reflexivity|]. now rewrite outcome_alloc.
Qed.

Lemma operator_follows_kernel_witness :
  exists op',
    convolve (mkArr [1; 2] [num 1; num 1]) [3; 3] "C" = inr op' /\
    outcome (apply_obj example_operator 1 example_store_later) =
      (Y <- LinearOperator_apply op' (vec example_image) ;; ret (Some Y)) /\
    outcome (applyAdjoint_obj example_operator 1 example_store_later) =
      (Y <- LinearOperator_applyAdjoint op' (vec example_image) ;;
       ret (Some Y)).
Proof.
  apply (operator_follows_kernel 0 [3; 3] "C" example_store example_store
           example_operator example_kernel);
    reflexivity.
Defined.

(** ** The operator of [gradient] as central differences *)

Lemma row_sub_length r c p :
  length r = length p -> length (row_sub r c p) = length r.
Proof. apply zipWith_length. Qed.

Lemma find_pivot_rows c rows p rest (L : nat) :
  find_pivot c rows = Some (p, rest) ->
  Forall (fun r => length r = L) rows ->
  length p = L /\ Forall (fun r => length r = L) rest.
Proof.
  revert p rest. induction rows as [|r rows IH]; intros p rest; simpl;
    [discriminate|].
  intros H HL. inversion HL as [|r' rows' Hr Hrows]; subst.
  destruct (Qc_eqb (nth c r (Q2Qc 0)) (Q2Qc 0)).
  - destruct (find_pivot c rows) as [[p' rest']|]; [|discriminate].
    injection H as <- <-. destruct (IH p' rest' eq_refl Hrows) as [Hp Hrest].
    split; [exact Hp|]. now constructor.
  - injection H as <- <-. now split.
Qed.

(** Gauss-Jordan elimination keeps the length of the rows. *)
Lemma eliminate_rows cols done todo rows (L : nat) :
  eliminate cols done todo = Some rows ->
  Forall (fun r => length r = L) done ->
  Forall (fun r => length r = L) todo ->
  Forall (fun r => length r = L) rows.
Proof.
  revert done todo. induction cols as [|c cols IH]; intros done todo; simpl.
  - now intros [= <-].
  - destruct (find_pivot c todo) as [[p rest]|] eqn:Hp; [|discriminate].
    intros H Hdone Htodo.
    destruct (find_pivot_rows _ _ _ _ L Hp Htodo) as [Hlp Hrest].
    assert (Hp' : length (row_scale (/ nth c p (Q2Qc 0))%Qc p) = L)
      by (unfold row_scale; now rewrite length_map).
    assert (Hclear : forall l, Forall (fun r => length r = L) l ->
      Forall (fun r => length r = L)
        (map (fun r => row_sub r (nth c r (Q2Qc 0))
                         (row_scale (/ nth c p (Q2Qc 0))%Qc p)) l)).
    { intros l Hl. apply Forall_map.
      eapply Forall_impl; [|exact Hl]. cbv beta. intros r Hr.
      rewrite row_sub_length; congruence. }
    apply (IH _ _ H).
    + apply Forall_app. split; [now apply Hclear|]. now constructor.
    + now apply Hclear.
Qed.

Lemma getitem_In {A} (l : list A) (i : Z) (a : A) :
  getitem l i = inr a -> In a l.
Proof.
  unfold getitem.
  destruct ((0 <=? _) && _)%Z; [|discriminate].
  destruct (nth_error l _) eqn:E; [|discriminate].
  intros [= <-]. eapply nth_error_In. exact E.
Qed.

(** [central_diff_weights] returns as many weights as points. *)
Lemma central_diff_weights_length (Np ndiv : Z) (w : list Qc) :
  central_diff_weights Np ndiv = inr w -> length w = Z.to_nat Np.
Proof.
  intros H. pose proof (central_diff_weights_inr _ _ _ H) as (Hpos & _ & _).
  revert H. unfold central_diff_weights.
  destruct (Np <? ndiv + 1)%Z; [discriminate|].
  destruct (Np mod 2 =? 0)%Z; [discriminate|].
  set (x := map _ (seq 0 (Z.to_nat (2 * Z.shiftr Np 1 + 1)))).
  set (powers := 0 :: seq 1 (Z.to_nat Np - 1)).
  assert (Hpow : length powers = Z.to_nat Np)
    by (subst powers; cbn [length]; rewrite length_seq; lia).
  unfold linalg_inv.
  destruct (Nat.eqb_spec (length x) (length powers)) as [Hsq|];
    [|discriminate].
  cbn [negb].
  destruct (eliminate _ _ _) as [rows|] eqn:Hel; [|discriminate].
  cbn [bind ret].
  destruct (getitem _ ndiv) as [e|row] eqn:Hrow; [discriminate|].
  intros [= <-]. unfold row_scale. rewrite length_map.
  apply getitem_In in Hrow. apply in_map_iff in Hrow.
  destruct Hrow as (r & <- & Hr).
  apply (eliminate_rows _ _ _ _ (length x + length x)) in Hel.
  - rewrite Forall_forall in Hel. rewrite length_skipn, (Hel r Hr). lia.
  - constructor.
  - apply Forall_map, Forall_forall. intros i Hi. apply in_seq in Hi.
    rewrite length_app, (length_map _ (seq 0 (length x))), length_seq.
    f_equal.
    rewrite (nth_indep _ [] (map (fun k => Qcpower (Q2Qc 0) k) powers))
      by (rewrite length_map; lia).
    rewrite (map_nth (fun xi => map (fun k => Qcpower xi k) powers)).
    rewrite length_map. now symmetry.
Qed.

Lemma eq_idx_true t i : eq_idx t i = true <-> t = i.
Proof.
  unfold eq_idx. revert i. induction t as [|a t IH]; intros [|b i]; simpl;
    try easy.
  specialize (IH i). rewrite andb_true_iff in *.
  rewrite andb_true_iff, !Nat.eqb_eq in *. split.
  - intros [Hl [-> H]]. f_equal. apply IH. split; [lia|exact H].
  - intros [= -> ->]. destruct IH as [_ IH]. specialize (IH eq_refl).
    tauto.
Qed.

(** Off the axis of the difference, the kernel entry met by [t] and [i] is
    the centre exactly when [t] and [i] agree. *)
Lemma stencil_rest c k t i :
  length t = k -> length i = k ->
  let j := zipWith Nat.add (repeat c k) t in
  (le_idx i j && validb (repeat (2 * c + 1) k) (sub_idx j i)
   && forallb (fun a => a =? c) (sub_idx j i)) = true <-> t = i.
Proof.
  revert t i. induction k as [|k IH]; intros [|a t] [|b i]; simpl; try easy.
  intros Ht Hi. specialize (IH t i ltac:(lia) ltac:(lia)). simpl in IH.
  rewrite le_idx_cons. unfold sub_idx in *.
  rewrite !andb_true_iff in *.
  rewrite Nat.leb_le, Nat.ltb_lt, Nat.eqb_eq. split.
  - intros [[[Hle HL] [Hlt HV]] [Hc HF]]. f_equal; [lia|].
    apply IH. tauto.
  - intros [= -> ->]. destruct IH as [_ IH]. specialize (IH eq_refl).
    repeat split; try tauto; lia.
Qed.

(** On the axis of the difference. *)
Lemma stencil_index c n dim t i :
  length t = n -> length i = n -> dim < n ->
  let j := zipWith Nat.add (repeat c n) t in
  ((le_idx i j && validb (repeat (2 * c + 1) n) (sub_idx j i)
    && on_axis dim c (sub_idx j i)) = true <-> within c dim t i = true) /\
  nth dim (sub_idx j i) 0 = c + nth dim t 0 - nth dim i 0.
Proof.
  unfold within.
  revert n t i. induction dim as [|dim IH]; intros [|n] [|a t] [|b i];
    simpl; try easy; try lia; intros Ht Hi Hdim.
  - pose proof (stencil_rest c n t i ltac:(lia) ltac:(lia)) as Hrest.
    simpl in Hrest. rewrite le_idx_cons. unfold sub_idx in *.
    split; [|reflexivity].
    rewrite !andb_true_iff in *.
    rewrite !Nat.leb_le, Nat.ltb_lt, eq_idx_true. split.
    + intros [[[Hle HL] [Hlt HV]] HF]. repeat split; try lia.
      apply Hrest. tauto.
    + intros [[Heq Hle] Hle']. destruct Hrest as [_ Hrest].
      specialize (Hrest Heq). repeat split; try tauto; lia.
  - destruct (IH n t i ltac:(lia) ltac:(lia) ltac:(lia)) as [IHw IHn].
    simpl in IHw, IHn. rewrite le_idx_cons. unfold sub_idx in *.
    split; [|exact IHn].
    rewrite !andb_true_iff in *.
    rewrite !Nat.leb_le, Nat.ltb_lt, !Nat.eqb_eq in *. split.
    + intros [[[Hle HL] [Hlt HV]] [Hc HA]].
      assert (a = b) by lia. tauto.
    + intros [[[-> HA] Hle] Hle'].
      destruct IHw as [_ IHw]. repeat split; try lia; apply IHw; tauto.
Qed.

(** What [gradient] has checked when it has built its kernel. *)
Lemma gradient_kernel_inr derivative points shape step K :
  gradient_kernel derivative points shape step = inr K ->
  Forall (fun s => (points <= Z.of_nat s)%Z) shape /\
  length (steps_of step shape) = length shape /\
  exists w, central_diff_weights points derivative = inr w.
Proof.
  unfold gradient_kernel.
  destruct (existsb _ shape) eqn:Hsmall; [discriminate|].
  intros HK. split; [|split].
  - apply Forall_forall. intros s Hs.
    destruct (Z.ltb_spec (Z.of_nat s) points) as [Hlt|]; [|assumption].
    assert (existsb (fun s => (Z.of_nat s <? points)%Z) shape = true).
    { apply existsb_exists. exists s. split; [exact Hs|].
      now apply Z.ltb_lt. }
    congruence.
  - destruct step as [st|]; simpl in *; [|apply repeat_length].
    destruct (Nat.eqb_spec (length st) (length shape));
      [assumption|discriminate].
  - destruct step as [st|]; [destruct (length st =? length shape)|];
      cbn [negb bind ret raise] in HK; try discriminate;
      destruct (central_diff_weights points derivative) as [e|w];
      try discriminate; now exists w.
Qed.

Lemma f_starts_repeat m n :
  f_starts (repeat m n) = repeat (Z.to_nat ((Z.of_nat m - 1) / 2)) n.
Proof. unfold f_starts. apply map_repeat. Qed.

Section Differences.

Local Open Scope Qc_scope.

Lemma sum_over_if {A} (b : bool) (l : list A) (g : A -> Qc) :
  (if b then sum_over l g else 0) = sum_over l (fun a => if b then g a else 0).
Proof. destruct b; [reflexivity|]. symmetry. apply sum_over_zero. Qed.

Variables (derivative points : Z) (shape : list nat).
Variables (step : option (list Qc)) (K : ndarray) (w : list Qc).
Hypothesis Hd : (0 <= derivative)%Z.
Hypothesis HK : gradient_kernel derivative points shape step = inr K.
Hypothesis Hw : central_diff_weights points derivative = inr w.

(** The matrix of the operator of [gradient] is the sum, over the
    dimensions, of the matrices of the central differences. *)
Lemma gradient_coefficient t i :
  valid shape t -> valid shape i ->
  coefficient K t i =
  sum_over (enumerate (steps_of step shape)) (fun ds =>
    difference w (Z.to_nat (points / 2)) (fst ds)
               (snd ds ^ Z.to_nat derivative) t i).
Proof.
  intros Ht Hi.
  destruct (gradient_kernel_closed _ _ _ _ _ Hd HK) as (w' & Hw' & Hs & Hg).
  rewrite Hw in Hw'. injection Hw' as <-.
  destruct (gradient_kernel_inr _ _ _ _ _ HK) as (_ & Hlen & _).
  destruct (central_diff_weights_inr _ _ _ Hw) as (Hpos & _ & Hodd).
  pose proof (central_diff_weights_length _ _ _ Hw) as Hwl.
  set (c := Z.to_nat (points / 2)) in *.
  assert (HP : Z.to_nat points = (2 * c + 1)%nat)
    by (subst c; pose proof (Z.div_mod points 2); lia).
  assert (Hc : Z.to_nat ((Z.of_nat (Z.to_nat points) - 1) / 2) = c)
    by (subst c; f_equal; Z.div_mod_to_equations; lia).
  pose proof (valid_length _ _ Ht) as Hlt.
  pose proof (valid_length _ _ Hi) as Hli.
  unfold coefficient. cbv zeta. rewrite Hs, f_starts_repeat, Hc, HP.
  set (j := zipWith Nat.add (repeat c (length shape)) t).
  destruct (le_idx i j && validb _ (sub_idx j i)) eqn:G.
  - rewrite Hg
      by (rewrite Hs, HP; apply validb_valid; now apply andb_true_iff in G).
    apply sum_over_ext. intros [dim s] Hin. cbn [fst snd].
    apply enumerate_dim in Hin. rewrite Hlen in Hin.
    destruct (stencil_index c (length shape) dim t i Hlt Hli Hin)
      as [Hiff Hnth].
    cbv zeta in Hiff, Hnth. fold j in Hiff, Hnth. rewrite G in Hiff.
    cbn [andb] in Hiff. unfold difference.
    destruct (on_axis dim c (sub_idx j i)), (within c dim t i) eqn:W;
      try reflexivity;
      try (destruct Hiff as [H1 H2];
           (specialize (H1 eq_refl) || specialize (H2 eq_refl));
           discriminate).
    rewrite Hnth. f_equal.
    unfold within in W. rewrite !andb_true_iff, !Nat.leb_le in W.
    rewrite rev_nth by lia. f_equal. lia.
  - rewrite (sum_over_ext _ _ (fun _ => 0)); [now rewrite sum_over_zero|].
    intros [dim s] Hin. cbn [fst snd].
    apply enumerate_dim in Hin. rewrite Hlen in Hin.
    destruct (stencil_index c (length shape) dim t i Hlt Hli Hin)
      as [Hiff _].
    cbv zeta in Hiff. fold j in Hiff. rewrite G in Hiff.
    cbn [andb] in Hiff. unfold difference.
    destruct (within c dim t i); [|reflexivity].
    destruct Hiff as [_ H2]. specialize (H2 eq_refl). discriminate.
Qed.

End Differences.

Section Stencils.

Local Open Scope Qc_scope.

(** A sum of products, the first factors being sums themselves. *)
Lemma sum_over_sum_scale {A B} (l1 : list A) (l2 : list B)
    (g : B -> A -> Qc) (x : A -> Qc) :
  sum_over l1 (fun i => sum_over l2 (fun ds => g ds i) * x i) =
  sum_over l2 (fun ds => sum_over l1 (fun i => g ds i * x i)).
Proof.
  rewrite sum_over_swap. apply sum_over_ext. intros i _.
  symmetry. apply sum_over_scale_r.
Qed.

End Stencils.

(** X11: the operator of [gradient], for a derivative order that is not
    negative and steps whose power [step[dim] ** derivative] is not 0.0,
    adds up central differences along the dimensions: entry [t]
    of its answer is the sum, over the dimensions [dim] and the entries [i]
    that are [t] moved by at most [points // 2] along [dim], of the weight
    at offset [i[dim] - t[dim]] from the centre times the input at [i],
    over [step[dim] ** derivative]; entries outside the array count as 0.
    Its adjoint does the same with the offsets negated. *)
Theorem gradient_central_differences (derivative points : Z)
    (shape : list nat) (step : option (list Qc)) (order : string)
    (op : LinearOperator) :
  (0 <= derivative)%Z ->
  nonzero_step_powers derivative (steps_of step shape) ->
  gradient derivative points shape step order = inr op ->
  forall x : list Qc, length x = prod shape ->
    exists w u v,
      central_diff_weights points derivative = inr w /\
      LinearOperator_apply op (vec x) = inr (vec u) /\
      LinearOperator_applyAdjoint op (vec x) = inr (vec v) /\
      forall t, valid shape t ->
        nth (ravel_by order shape t) u (Q2Qc 0) =
          sum_over (enumerate (steps_of step shape)) (fun ds =>
            sum_over (indices shape) (fun i =>
              (difference w (Z.to_nat (points / 2)) (fst ds)
                          (Qcpower (snd ds) (Z.to_nat derivative)) t i
               * nth (ravel_by order shape i) x (Q2Qc 0))%Qc)) /\
        nth (ravel_by order shape t) v (Q2Qc 0) =
          sum_over (enumerate (steps_of step shape)) (fun ds =>
            sum_over (indices shape) (fun i =>
              (difference w (Z.to_nat (points / 2)) (fst ds)
                          (Qcpower (snd ds) (Z.to_nat derivative)) i t
               * nth (ravel_by order shape i) x (Q2Qc 0))%Qc)).
Proof.
  intros Hd _. unfold gradient.
  destruct (gradient_kernel derivative points shape step) as [e|K] eqn:HK;
    [discriminate|].
  cbn [bind]. intros Hop x Hx.
  destruct (gradient_kernel_inr _ _ _ _ _ HK) as (Hbig & _ & w & Hw).
  destruct (central_diff_weights_inr _ _ _ Hw) as (Hpos & _ & _).
  destruct (gradient_kernel_closed _ _ _ _ _ Hd HK) as (_ & _ & Hs & _).
  pose proof (convolve_inr _ _ _ _ Hop) as (Hdim & _ & _ & _).
  assert (Hk : Forall (fun m => 0 < m) (a_shape K)).
  { rewrite Hs. apply Forall_forall. intros m Hm.
    apply repeat_spec in Hm. lia. }
  assert (Hsh : Forall (fun n => 0 < n) shape).
  { eapply Forall_impl; [|exact Hbig]. cbv beta. intros s Hle. lia. }
  exists w. eexists. eexists.
  split; [exact Hw|].
  split; [exact (apply_vec _ _ _ _ Hop Hk Hsh x Hx)|].
  split; [exact (applyAdjoint_vec _ _ _ _ Hop Hk Hsh x Hx)|].
  intros t Ht. split.
  - rewrite (forward_conv_entry K shape order x t Ht).
    rewrite <- sum_over_sum_scale.
    apply sum_over_ext. intros i Hi. apply in_indices in Hi.
    now rewrite (gradient_coefficient _ _ _ _ _ _ Hd HK Hw t i Ht Hi).
  - rewrite (adjoint_conv_entry K shape order Hdim Hk x t Ht).
    rewrite <- sum_over_sum_scale.
    apply sum_over_ext. intros i Hi. apply in_indices in Hi.
    now rewrite (gradient_coefficient _ _ _ _ _ _ Hd HK Hw i t Hi Ht).
Qed.

Lemma gradient_central_differences_witness :
  nonzero_step_powers 1 (steps_of None [5; 6]) /\
  exists op w u v,
    gradient 1 3 [5; 6] None "C" = inr op /\
    central_diff_weights 3 1 = inr w /\
    LinearOperator_apply op (vec example_field) = inr (vec u) /\
    LinearOperator_applyAdjoint op (vec example_field) = inr (vec v) /\
    forall t, valid [5; 6] t ->
      nth (ravel_by "C" [5; 6] t) u (Q2Qc 0) =
        sum_over (enumerate (steps_of None [5; 6])) (fun ds =>
          sum_over (indices [5; 6]) (fun i =>
            (difference w (Z.to_nat (3 / 2)) (fst ds)
                        (Qcpower (snd ds) (Z.to_nat 1)) t i
             * nth (ravel_by "C" [5; 6] i) example_field (Q2Qc 0))%Qc)) /\
      nth (ravel_by "C" [5; 6] t) v (Q2Qc 0) =
        sum_over (enumerate (steps_of None [5; 6])) (fun ds =>
          sum_over (indices [5; 6]) (fun i =>
            (difference w (Z.to_nat (3 / 2)) (fst ds)
                        (Qcpower (snd ds) (Z.to_nat 1)) i t
             * nth (ravel_by "C" [5; 6] i) example_field (Q2Qc 0))%Qc)).
Proof.
  assert (Hstep : nonzero_step_powers 1 (steps_of None [5; 6])).
  { repeat constructor; intros H; apply (proj2 (Qc_eqb_eq _ _)) in H;
      vm_compute in H; discriminate. }
  split; [exact Hstep|].
  destruct (gradient 1 3 [5; 6] None "C") as [e|op] eqn:E.
  - exfalso. vm_compute in E. discriminate.
  - destruct (gradient_central_differences 1 3 [5; 6] None "C" op)
      with (x := example_field) as (w & u & v & H);
      [lia|exact Hstep|exact E|reflexivity|].
    exists op, w, u, v. split; [reflexivity|exact H].
Defined.
